(** * libosmium: the read thread and the memory-mapping wrapper

    A shallow embedding of

    - [osmium::io::detail::ReadThread] (io/detail/read_thread.hpp), the
      producer of the bounded read pipeline,
    - [osmium::util::MemoryMapping], [AnonymousMemoryMapping] and
      [TypedMemoryMapping<T>] (util/memory_mapping.hpp), on the three
      platforms the header distinguishes,
    - [osmium::index::multimap::SparseMemMultimap<TId, TValue>]
      (index/multimap/sparse_mem_multimap.hpp), and
    - the conversions of member types in io/pbf.hpp,

    followed by the properties of each. *)

From Stdlib Require Import String.
From Stdlib Require Import ZArith List Bool Lia Arith.
From Stdlib Require Import Permutation Sorted.
Import ListNotations.

(* ================================================================== *)
(** * Part I: the producer of the read pipeline *)
(* ================================================================== *)

Module ReadThread.

(** What one call of [Decompressor::read()] does: it returns a chunk (the
    empty chunk at end of stream) or it throws. *)
Inductive read_result : Type :=
| Data (chunk : string)
| ReadThrows.

(** Why control left the [while (!m_done)] loop of [operator()]. *)
Inductive loop_exit : Type :=
| EndOfStream   (* the [break] of line 78 *)
| Cancelled     (* the loop test of line 74 saw [m_done] set *)
| ReadFailed.   (* [read()] threw, line 75 *)

(** The places of [ReadThread::operator()] between which another thread can
    observe or change the shared queue and flag.  Every access to
    [m_queue] or [m_done] is a step of its own. *)
Inductive pc : Type :=
| AtLoopTest              (* line 74: while (!m_done) *)
| AtRead                  (* line 75: std::string data {m_decompressor->read()} *)
| AtBranch (data : string)(* lines 76-80: if (data.empty()) push, break; else push *)
| AtQueueSize             (* line 81: m_queue.size() > 10 *)
| AtDoneCheck             (* line 81: && !m_done, then line 82: sleep_for *)
| AtClose                 (* line 86: m_decompressor->close() *)
| AtCatch                 (* line 92: m_queue.push(std::string()) *)
| Returned                (* line 95: return true *)
| Rethrown.               (* line 93: throw *)

(** The producer, the two shared objects, the Decompressor it reads from,
    and the history: [pushed], [closes] and [exited] record what the
    producer did and are never read by it; [popped] is what the consumer
    has seen. *)
Record state : Type := mkState {
  at_pc        : pc;
  m_queue      : list string;       (* front of the queue first *)
  m_done       : bool;
  script       : list read_result;  (* what the next calls of read() do *)
  close_throws : bool;              (* what close() does *)
  pushed       : list string;       (* every chunk given to push(), oldest first *)
  popped       : list string;       (* every chunk the consumer popped, oldest first *)
  closes       : nat;               (* number of calls of close() *)
  exited       : option loop_exit
}.

Definition empty (data : string) : bool :=
  match data with
  | EmptyString => true
  | String _ _ => false
  end.

Definition goto (l : pc) (s : state) : state :=
  mkState l (m_queue s) (m_done s) (script s) (close_throws s)
          (pushed s) (popped s) (closes s) (exited s).

Definition leave (why : loop_exit) (s : state) : state :=
  mkState (at_pc s) (m_queue s) (m_done s) (script s) (close_throws s)
          (pushed s) (popped s) (closes s) (Some why).

(** [m_queue.push(data)] *)
Definition push (data : string) (s : state) : state :=
  mkState (at_pc s) (m_queue s ++ [data]) (m_done s) (script s) (close_throws s)
          (pushed s ++ [data]) (popped s) (closes s) (exited s).

(** Modelled from the spec: the Decompressor (osmium/io/compression.hpp is
    not among the sources).  [read()] returns the next chunk of the script,
    or throws; once the script is used up it keeps returning the empty chunk
    (end of stream). *)
Definition read (s : state) : read_result * state :=
  match script s with
  | [] => (Data EmptyString, s)
  | r :: rest =>
      (r, mkState (at_pc s) (m_queue s) (m_done s) rest (close_throws s)
                  (pushed s) (popped s) (closes s) (exited s))
  end.

(** [m_decompressor->close()]: counted, and it throws or not. *)
Definition close (s : state) : bool * state :=
  (close_throws s,
   mkState (at_pc s) (m_queue s) (m_done s) (script s) (close_throws s)
           (pushed s) (popped s) (S (closes s)) (exited s)).

(** One step of [ReadThread::operator()]; [None] once it has returned or
    rethrown.  ([set_thread_name] touches nothing the pipeline shares and
    is left out; [push] does not fail.) *)
Definition producer_step (s : state) : option state :=
  match at_pc s with
  | AtLoopTest =>
      if m_done s then Some (goto AtClose (leave Cancelled s))
      else Some (goto AtRead s)
  | AtRead =>
      match read s with
      | (Data data, s') => Some (goto (AtBranch data) s')
      | (ReadThrows, s') => Some (goto AtCatch (leave ReadFailed s'))
      end
  | AtBranch data =>
      if empty data then Some (goto AtClose (leave EndOfStream (push data s)))
      else Some (goto AtQueueSize (push data s))
  | AtQueueSize =>
      if 10 <? length (m_queue s) then Some (goto AtDoneCheck s)
      else Some (goto AtLoopTest s)
  | AtDoneCheck =>
      if negb (m_done s) then Some (goto AtQueueSize s)  (* after sleep_for(10ms) *)
      else Some (goto AtLoopTest s)
  | AtClose =>
      match close s with
      | (true, s') => Some (goto AtCatch s')
      | (false, s') => Some (goto Returned s')
      end
  | AtCatch => Some (goto Rethrown (push EmptyString s))
  | Returned => None
  | Rethrown => None
  end.

Definition terminated (s : state) : bool :=
  match at_pc s with
  | Returned | Rethrown => true
  | _ => false
  end.

(** Modelled from the spec: the consumer (the Reader is not among the
    sources).  It pops chunks in order; after it has popped the sentinel
    (an empty chunk) it never pops again.  On an empty queue it waits. *)
Definition saw_sentinel (s : state) : bool := existsb empty (popped s).

Definition consumer_pop (s : state) : option state :=
  if saw_sentinel s then None
  else match m_queue s with
       | [] => None
       | data :: rest =>
           Some (mkState (at_pc s) rest (m_done s) (script s) (close_throws s)
                         (pushed s) (popped s ++ [data]) (closes s) (exited s))
       end.

(** The owner of the pipeline sets the cancellation flag. *)
Definition set_done (s : state) : state :=
  mkState (at_pc s) (m_queue s) true (script s) (close_throws s)
          (pushed s) (popped s) (closes s) (exited s).

(** The three threads of control, and a schedule: who moves next.  An actor
    that cannot move (the producer has ended, the consumer waits) leaves the
    state as it is. *)
Inductive actor : Type := Producer | Consumer | Canceller.

Definition act (a : actor) (s : state) : state :=
  match a with
  | Producer => match producer_step s with Some s' => s' | None => s end
  | Consumer => match consumer_pop s with Some s' => s' | None => s end
  | Canceller => set_done s
  end.

Definition run (sched : list actor) (s : state) : state :=
  fold_left (fun st a => act a st) sched s.

Definition init (sc : list read_result) (cf : bool) : state :=
  mkState AtLoopTest [] false sc cf [] [] 0 None.

(** Number of sentinels (empty chunks) pushed so far. *)
Definition sentinels (s : state) : nat := length (filter empty (pushed s)).

Definition is_canceller (a : actor) : bool :=
  match a with Canceller => true | _ => false end.

(** A schedule in which nobody sets the cancellation flag. *)
Definition uncancelled (sched : list actor) : Prop :=
  forallb (fun a => negb (is_canceller a)) sched = true.

(** A whole script: the chunks, then the empty chunk. *)
Definition stream (chunks : list string) : list read_result :=
  map Data chunks ++ [Data EmptyString].

Definition nonempty (chunks : list string) : Prop :=
  forallb (fun c => negb (empty c)) chunks = true.

(** The pipeline after the threads have moved as [sched] says, started on
    a Decompressor that behaves as [sc] and [cf] say. *)
Definition pipeline (sc : list read_result) (cf : bool) (sched : list actor)
  : state :=
  run sched (init sc cf).

(** ** Invariants of the pipeline *)

(** The queue is first in, first out, and the consumer has popped nothing
    after a sentinel. *)
Definition fifo_inv (s : state) : Prop :=
  pushed s = popped s ++ m_queue s /\
  existsb empty (removelast (popped s)) = false.

(** How the loop was left and what has been pushed and closed, at each
    place of [operator()]. *)
Definition left_normally (s : state) (extra : nat) : Prop :=
  (exited s = Some EndOfStream /\ sentinels s = 1 + extra) \/
  (exited s = Some Cancelled /\ sentinels s = extra).

Definition ctl_inv (s : state) : Prop :=
  match at_pc s with
  | AtLoopTest | AtRead | AtBranch _ | AtQueueSize | AtDoneCheck =>
      exited s = None /\ closes s = 0 /\ sentinels s = 0
  | AtClose => closes s = 0 /\ left_normally s 0
  | AtCatch =>
      (exited s = Some ReadFailed /\ closes s = 0 /\ sentinels s = 0) \/
      (close_throws s = true /\ closes s = 1 /\ left_normally s 0)
  | Returned => close_throws s = false /\ closes s = 1 /\ left_normally s 0
  | Rethrown =>
      (exited s = Some ReadFailed /\ closes s = 0 /\ sentinels s = 1) \/
      (close_throws s = true /\ closes s = 1 /\ left_normally s 1)
  end.

(** While nobody cancels and the Decompressor delivers [chunks] and then
    the empty chunk: what has been pushed, and what is still to be read. *)
Definition flow_inv (chunks : list string) (s : state) : Prop :=
  m_done s = false /\
  match at_pc s with
  | AtLoopTest | AtRead | AtQueueSize | AtDoneCheck =>
      exists rest, chunks ++ [EmptyString] = pushed s ++ rest /\
                   script s = map Data rest /\ rest <> []
  | AtBranch data =>
      exists rest, chunks ++ [EmptyString] = pushed s ++ data :: rest /\
                   script s = map Data rest
  | AtClose | AtCatch | Returned => pushed s = chunks ++ [EmptyString]
  | Rethrown => pushed s = (chunks ++ [EmptyString]) ++ [EmptyString]
  end.

(** A measure that the producer or the consumer can decrease as long as
    the pipeline is not through. *)
Definition rank (l : pc) : nat :=
  match l with
  | Returned | Rethrown => 0
  | AtCatch => 2
  | AtClose => 4
  | AtBranch data => if empty data then 6 else 11
  | AtRead => 7
  | AtLoopTest => 8
  | AtQueueSize => 9
  | AtDoneCheck => 10
  end.

Definition measure (s : state) : nat :=
  10 * length (script s) + rank (at_pc s) + length (m_queue s).

(** The consumer is through: it waits on an empty queue or has seen the
    sentinel, and the producer has ended. *)
Definition quiescent (s : state) : Prop :=
  terminated s = true /\ consumer_pop s = None.

(** ** Further invariants of the pipeline *)

(** The backpressure wait bounds the queue: the producer reads the next
    chunk only after it has seen at most 10 chunks in the queue. *)
Definition queue_inv (s : state) : Prop :=
  match at_pc s with
  | AtLoopTest =>
      length (m_queue s) <= 10 \/ (m_done s = true /\ length (m_queue s) <= 11)
  | AtRead | AtBranch _ => length (m_queue s) <= 10
  | AtQueueSize | AtDoneCheck | AtClose | AtCatch | Returned =>
      length (m_queue s) <= 11
  | Rethrown => length (m_queue s) <= 12
  end.

(** The Decompressor delivers [chunks] and then throws: what has been
    pushed and what is still to be read, while nobody cancels. *)
Definition failing (chunks : list string) (rest : list read_result)
  : list read_result :=
  map Data chunks ++ ReadThrows :: rest.

Definition fail_inv (chunks : list string) (rest : list read_result)
    (s : state) : Prop :=
  m_done s = false /\ closes s = 0 /\
  match at_pc s with
  | AtLoopTest | AtRead | AtQueueSize | AtDoneCheck =>
      exists todo, chunks = pushed s ++ todo /\ script s = failing todo rest
  | AtBranch data =>
      exists todo, chunks = pushed s ++ data :: todo /\
                   script s = failing todo rest
  | AtCatch => pushed s = chunks
  | Rethrown => pushed s = chunks ++ [EmptyString]
  | AtClose | Returned => False
  end.

(** The Decompressor delivers [chunks] and then the empty chunk, and the
    flag may be set at any time: what has been pushed is the first [j]
    chunks, followed after the loop by sentinels only. *)
Definition order_inv (chunks : list string) (s : state) : Prop :=
  exists j,
    match at_pc s with
    | AtLoopTest | AtRead | AtQueueSize | AtDoneCheck =>
        pushed s = firstn j chunks /\ script s = stream (skipn j chunks)
    | AtBranch data =>
        pushed s = firstn j chunks /\
        Data data :: script s = stream (skipn j chunks)
    | AtClose | AtCatch | Returned | Rethrown =>
        exists tail, pushed s = firstn j chunks ++ tail /\
                     forallb empty tail = true
    end.

(** How many steps of its own the producer needs at most to end, once the
    flag is set. *)
Definition rank_done (l : pc) : nat :=
  match l with
  | AtRead => 8
  | AtBranch _ => 7
  | AtQueueSize => 6
  | AtDoneCheck => 5
  | AtLoopTest => 4
  | AtClose => 3
  | AtCatch => 1
  | Returned | Rethrown => 0
  end.

Definition is_producer (a : actor) : bool :=
  match a with Producer => true | _ => false end.

(** The number of steps the schedule gives to the producer. *)
Definition producer_steps (sched : list actor) : nat :=
  length (filter is_producer sched).

(** The calls of [read()] the producer can still make once the flag is set:
    the one it is about to make, if any. *)
Definition reads_left (s : state) : nat :=
  match at_pc s with AtRead => 1 | _ => 0 end.

(** When [operator()] rethrows, the sentinel is the last chunk it pushed. *)
Definition sentinel_last (s : state) : Prop :=
  at_pc s = Rethrown -> exists before, pushed s = before ++ [EmptyString].

End ReadThread.

(* ================================================================== *)
(** * Part II: memory mappings *)
(* ================================================================== *)

Module Util.

Local Open Scope Z_scope.

(** The three ways the header is compiled: [__linux__], another Unix
    ([_WIN32] and [__linux__] both undefined), and [_WIN32]. *)
Inductive platform : Type := Linux | OtherUnix | Windows.

(** ** Machine integers and pointers *)

(** [std::size_t], [uint64_t] and pointers are 64-bit unsigned; arithmetic
    on them wraps around. *)
Definition wrap64 (z : Z) : Z := z mod 2 ^ 64.

(** [DWORD] is 32-bit unsigned. *)
Definition wrap32 (z : Z) : Z := z mod 2 ^ 32.

(** Conversion to the signed 64-bit [off_t]. *)
Definition to_off_t (z : Z) : Z := (z + 2 ^ 63) mod 2 ^ 64 - 2 ^ 63.

Definition nullptr : Z := 0.

(** [MAP_FAILED] of <sys/mman.h>: the pointer value -1, all bits set. *)
Definition MAP_FAILED : Z := wrap64 (-1).

(** Constants of <sys/mman.h> and <windows.h> (the values of Linux, of the
    BSDs for [MAP_ANON], and of the Windows SDK). *)
Definition PROT_READ : Z := 1.
Definition PROT_WRITE : Z := 2.
Definition MAP_SHARED : Z := 1.
Definition MAP_PRIVATE : Z := 2.
Definition MAP_ANONYMOUS (p : platform) : Z :=
  match p with Linux => 32 | _ => 4096 end.
Definition MREMAP_MAYMOVE : Z := 1.
Definition PAGE_READONLY : Z := 2.
Definition PAGE_READWRITE : Z := 4.
Definition PAGE_WRITECOPY : Z := 8.
Definition FILE_MAP_COPY : Z := 1.
Definition FILE_MAP_WRITE : Z := 2.
Definition FILE_MAP_READ : Z := 4.
Definition INVALID_HANDLE_VALUE : Z := wrap64 (-1).
Definition O_BINARY : Z := 32768.

(** ** The operating system *)

(** The calls the class makes, with their arguments ([nullptr] arguments
    that never vary are left out). *)
Inductive os_call : Type :=
| mmap (len prot flags fd off : Z)          (* ::mmap(nullptr, len, prot, flags, fd, off) *)
| munmap (addr len : Z)                     (* ::munmap(addr, len) *)
| mremap (addr old_len new_len flags : Z)   (* ::mremap(addr, old_len, new_len, flags) *)
| file_size (fd : Z)                        (* osmium::file_size(fd) *)
| resize_file (fd new_size : Z)             (* osmium::resize_file(fd, new_size) *)
| setmode (fd mode : Z)                     (* _setmode(fd, mode) *)
| get_osfhandle (fd : Z)                    (* _get_osfhandle(fd) *)
| CreateFileMapping (hfile prot hi lo : Z)  (* CreateFileMapping(hfile, nullptr, prot, hi, lo, nullptr) *)
| MapViewOfFile (h access hi lo n : Z)      (* MapViewOfFile(h, access, hi, lo, n) *)
| UnmapViewOfFile (addr : Z)                (* UnmapViewOfFile(addr) *)
| CloseHandle (h : Z).                      (* CloseHandle(h) *)

(** The calls made so far, oldest first. *)
Definition world : Type := list os_call.

(** The environment the code is compiled for and runs in.  The operating
    system answers each call with a number, depending on the calls made
    before; [last_error] is [errno], respectively [GetLastError()].

    Modelled from the spec: [osmium::get_pagesize], [osmium::file_size] and
    [osmium::resize_file] (osmium/util/file.hpp is not among the sources).
    The page size is a constant of the system; the two file helpers are
    calls answered by the system, a negative answer standing for the helper
    throwing [std::system_error]. *)
Record Env : Type := mkEnv {
  target     : platform;
  ndebug     : bool;                         (* NDEBUG: asserts compiled out *)
  pagesize   : Z;                            (* osmium::get_pagesize() *)
  reply      : world -> os_call -> Z;
  last_error : world -> Z
}.

(** ** The class [MemoryMapping] *)

Inductive mapping_mode : Type := readonly | write_private | write_shared.

Record MemoryMapping : Type := mkMapping {
  m_size         : Z;             (* std::size_t *)
  m_offset       : Z;             (* off_t *)
  m_fd           : Z;             (* int *)
  m_mapping_mode : mapping_mode;
  m_handle       : Z;             (* HANDLE; the member exists under _WIN32 only *)
  m_addr         : Z              (* pointer to void *)
}.

(** How a call ends: it returns, it throws [std::system_error{code,
    std::system_category(), what}], or the process is stopped (a failed
    [assert], or an exception leaving a [noexcept] function). *)
Inductive outcome (A : Type) : Type :=
| Ok (a : A)
| Throw (code : Z) (what : string)
| Abort (why : string).
Arguments Ok {A} a.
Arguments Throw {A} code what.
Arguments Abort {A} why.

(** A member function: it acts on the object and on the system. *)
Definition M (A : Type) : Type :=
  MemoryMapping * world -> outcome A * (MemoryMapping * world).

Definition ret {A : Type} (a : A) : M A := fun st => (Ok a, st).

Definition bind {A B : Type} (c : M A) (k : A -> M B) : M B :=
  fun st =>
    match c st with
    | (Ok a, st') => k a st'
    | (Throw code what, st') => (Throw code what, st')
    | (Abort why, st') => (Abort why, st')
    end.

Notation "x <- c ;; k" := (bind c (fun x => k))
  (at level 61, c at next level, right associativity).
Notation "c ;; k" := (bind c (fun _ => k))
  (at level 61, right associativity).

Definition abort {A : Type} (why : string) : M A := fun st => (Abort why, st).

(** [try { c } catch (const std::system_error&) { }] *)
Definition try_ignore (c : M unit) : M unit :=
  fun st =>
    match c st with
    | (Throw _ _, st') => (Ok tt, st')
    | r => r
    end.

(** A [noexcept] function: an exception that would leave it calls
    [std::terminate]. *)
Definition noexcept {A : Type} (c : M A) : M A :=
  fun st =>
    match c st with
    | (Throw _ _, st') => (Abort "std::terminate", st')
    | r => r
    end.

Definition this : M MemoryMapping := fun st => (Ok (fst st), st).

Definition assign (f : MemoryMapping -> MemoryMapping) : M unit :=
  fun st => (Ok tt, (f (fst st), snd st)).

Definition set_size (v : Z) (m : MemoryMapping) : MemoryMapping :=
  mkMapping v (m_offset m) (m_fd m) (m_mapping_mode m) (m_handle m) (m_addr m).
Definition set_offset (v : Z) (m : MemoryMapping) : MemoryMapping :=
  mkMapping (m_size m) v (m_fd m) (m_mapping_mode m) (m_handle m) (m_addr m).
Definition set_fd (v : Z) (m : MemoryMapping) : MemoryMapping :=
  mkMapping (m_size m) (m_offset m) v (m_mapping_mode m) (m_handle m) (m_addr m).
Definition set_mode (v : mapping_mode) (m : MemoryMapping) : MemoryMapping :=
  mkMapping (m_size m) (m_offset m) (m_fd m) v (m_handle m) (m_addr m).
Definition set_handle (v : Z) (m : MemoryMapping) : MemoryMapping :=
  mkMapping (m_size m) (m_offset m) (m_fd m) (m_mapping_mode m) v (m_addr m).
Definition set_addr (v : Z) (m : MemoryMapping) : MemoryMapping :=
  mkMapping (m_size m) (m_offset m) (m_fd m) (m_mapping_mode m) (m_handle m) v.

Definition is_readonly (mode : mapping_mode) : bool :=
  match mode with readonly => true | _ => false end.

Definition is_write_shared (mode : mapping_mode) : bool :=
  match mode with write_shared => true | _ => false end.

(** [x >> 32] and [x & 0xffffffff], each cast to [DWORD]. *)
Definition dword_hi (x : Z) : Z := wrap32 (Z.shiftr x 32).
Definition dword_lo (x : Z) : Z := wrap32 (Z.land x 4294967295).

Section Methods.

Variable e : Env.

(** A call of the operating system. *)
Definition syscall (c : os_call) : M Z :=
  fun st => (Ok (reply e (snd st) c), (fst st, snd st ++ [c])).

(** [throw std::system_error{errno, std::system_category(), what}] *)
Definition throw_system_error {A : Type} (what : string) : M A :=
  fun st => (Throw (last_error e (snd st)) what, st).

(** [assert(b && why)] *)
Definition assert (b : bool) (why : string) : M unit :=
  if ndebug e then ret tt
  else if b then ret tt else abort why.

Definition osmium_file_size (fd : Z) : M Z :=
  n <- syscall (file_size fd) ;;
  if n <? 0 then throw_system_error "Could not get file size" else ret n.

Definition osmium_resize_file (fd new_size : Z) : M unit :=
  r <- syscall (resize_file fd new_size) ;;
  if r <? 0 then throw_system_error "Could not resize file" else ret tt.

(** The address that marks an object without a mapping. *)
Definition invalid_address : Z :=
  match target e with
  | Windows => nullptr
  | _ => MAP_FAILED
  end.

Definition is_valid (m : MemoryMapping) : bool :=
  negb (m_addr m =? invalid_address).

Definition make_invalid (m : MemoryMapping) : MemoryMapping :=
  set_addr invalid_address m.

Definition get_protection (m : MemoryMapping) : Z :=
  match target e with
  | Windows =>
      match m_mapping_mode m with
      | readonly => PAGE_READONLY
      | write_private => PAGE_WRITECOPY
      | write_shared => PAGE_READWRITE
      end
  | _ =>
      if is_readonly (m_mapping_mode m) then PROT_READ
      else Z.lor PROT_READ PROT_WRITE
  end.

Definition get_flags (m : MemoryMapping) : Z :=
  match target e with
  | Windows =>
      match m_mapping_mode m with
      | readonly => FILE_MAP_READ
      | write_private => FILE_MAP_COPY
      | write_shared => FILE_MAP_WRITE
      end
  | p =>
      if m_fd m =? -1 then Z.lor MAP_PRIVATE (MAP_ANONYMOUS p)
      else if is_write_shared (m_mapping_mode m) then MAP_SHARED
      else MAP_PRIVATE
  end.

Definition check_size (size : Z) : Z :=
  if size =? 0 then pagesize e else size.

Definition resize_fd (fd : Z) : M Z :=
  if fd =? -1 then ret (-1)
  else
    m <- this ;;
    n <- osmium_file_size fd ;;
    (if n <? wrap64 (m_size m + m_offset m)
     then osmium_resize_file fd (wrap64 (m_size m + m_offset m))
     else ret tt) ;;
    ret fd.

(** The three helpers of the Windows implementation. *)
Definition get_handle : M Z :=
  m <- this ;;
  if m_fd m =? -1 then ret INVALID_HANDLE_VALUE
  else syscall (get_osfhandle (m_fd m)).

Definition create_file_mapping : M Z :=
  m <- this ;;
  (if negb (m_fd m =? -1) then _ <- syscall (setmode (m_fd m) O_BINARY) ;; ret tt
   else ret tt) ;;
  h <- get_handle ;;
  syscall (CreateFileMapping h (get_protection m)
             (dword_hi (wrap64 (m_size m + m_offset m)))
             (dword_lo (wrap64 (m_size m + m_offset m)))).

Definition map_view_of_file : M Z :=
  m <- this ;;
  syscall (MapViewOfFile (m_handle m) (get_flags m)
             (dword_hi (wrap64 (m_offset m))) (dword_lo (wrap64 (m_offset m)))
             (m_size m)).

(** [MemoryMapping::MemoryMapping(size, mode, fd, offset)]: the member
    initialisers in the order of the members, then the body. *)
Definition ctor_body (size : Z) (mode : mapping_mode) (fd offset : Z) : M unit :=
  assign (set_size (check_size size)) ;;
  assign (set_offset offset) ;;
  fd' <- resize_fd fd ;;
  assign (set_fd fd') ;;
  assign (set_mode mode) ;;
  match target e with
  | Windows =>
      h <- create_file_mapping ;;
      assign (set_handle h) ;;
      assign (set_addr nullptr) ;;
      m <- this ;;
      if m_handle m =? nullptr then throw_system_error "CreateFileMapping failed"
      else
        a <- map_view_of_file ;;
        assign (set_addr a) ;;
        m <- this ;;
        if negb (is_valid m) then throw_system_error "MapViewOfFile failed"
        else ret tt
  | _ =>
      m <- this ;;
      a <- syscall (mmap (m_size m) (get_protection m) (get_flags m)
                         (m_fd m) (m_offset m)) ;;
      assign (set_addr a) ;;
      assert (negb ((fd =? -1) && is_readonly mode))
             "!(fd == -1 && mode == mapping_mode::readonly)" ;;
      m <- this ;;
      if negb (is_valid m) then throw_system_error "mmap failed"
      else ret tt
  end.

(** The storage of an object before its constructor has run. *)
Definition raw_storage : MemoryMapping := mkMapping 0 0 0 readonly 0 0.

(** A constructor call: the new object, unless the constructor throws. *)
Definition ctor (size : Z) (mode : mapping_mode) (fd offset : Z) (w : world)
  : outcome MemoryMapping * world :=
  match ctor_body size mode fd offset (raw_storage, w) with
  | (Ok _, (m, w')) => (Ok m, w')
  | (Throw code what, (_, w')) => (Throw code what, w')
  | (Abort why, (_, w')) => (Abort why, w')
  end.

(** [MemoryMapping::MemoryMapping(MemoryMapping&& other) noexcept]: the new
    object and what is left of [other]. *)
Definition move_ctor (other : MemoryMapping) : MemoryMapping * MemoryMapping :=
  match target e with
  | Windows =>
      (mkMapping (m_size other) (m_offset other) (m_fd other)
                 (m_mapping_mode other) (m_handle other) (m_addr other),
       set_handle nullptr (make_invalid other))
  | _ =>
      (mkMapping (m_size other) (m_offset other) (m_fd other)
                 (m_mapping_mode other) (m_handle other) (m_addr other),
       make_invalid other)
  end.

(** [MemoryMapping::unmap()] *)
Definition unmap : M unit :=
  match target e with
  | Windows =>
      m <- this ;;
      (if is_valid m then
         r <- syscall (UnmapViewOfFile (m_addr m)) ;;
         if r =? 0 then throw_system_error "UnmapViewOfFile failed"
         else assign make_invalid
       else ret tt) ;;
      m <- this ;;
      if negb (m_handle m =? nullptr) then
        r <- syscall (CloseHandle (m_handle m)) ;;
        if r =? 0 then throw_system_error "CloseHandle failed"
        else assign (set_handle nullptr)
      else ret tt
  | _ =>
      m <- this ;;
      if is_valid m then
        r <- syscall (munmap (m_addr m) (m_size m)) ;;
        if negb (r =? 0) then throw_system_error "munmap failed"
        else assign make_invalid
      else ret tt
  end.

(** The part of move assignment after the release of the old mapping: the
    members are taken over and [other] is made invalid. *)
Definition take_over (other : MemoryMapping) : M MemoryMapping :=
  assign (set_size (m_size other)) ;;
  assign (set_offset (m_offset other)) ;;
  assign (set_fd (m_fd other)) ;;
  assign (set_mode (m_mapping_mode other)) ;;
  match target e with
  | Windows =>
      assign (set_handle (m_handle other)) ;;
      assign (set_addr (m_addr other)) ;;
      ret (set_handle nullptr (make_invalid other))
  | _ =>
      assign (set_addr (m_addr other)) ;;
      ret (make_invalid other)
  end.

(** [MemoryMapping::operator=(MemoryMapping&& other) noexcept], for an
    [other] that is another object than [*this]; the result is what is left
    of [other]. *)
Definition move_assign (other : MemoryMapping) : M MemoryMapping :=
  noexcept
    (match target e with
     | Windows => unmap ;; take_over other
     | _ => try_ignore unmap ;; take_over other
     end).

(** [MemoryMapping::~MemoryMapping() noexcept] *)
Definition dtor : M unit := noexcept (try_ignore unmap).

(** [MemoryMapping::resize(new_size)] *)
Definition resize (new_size : Z) : M unit :=
  match target e with
  | Windows =>
      unmap ;;
      assign (set_size new_size) ;;
      m <- this ;;
      _ <- resize_fd (m_fd m) ;;
      h <- create_file_mapping ;;
      assign (set_handle h) ;;
      m <- this ;;
      if m_handle m =? nullptr then throw_system_error "CreateFileMapping failed"
      else
        a <- map_view_of_file ;;
        assign (set_addr a) ;;
        m <- this ;;
        if negb (is_valid m) then throw_system_error "MapViewOfFile failed"
        else ret tt
  | p =>
      assert (0 <? new_size) "can not resize to zero size" ;;
      m <- this ;;
      if m_fd m =? -1 then
        match p with
        | Linux =>
            a <- syscall (mremap (m_addr m) (m_size m) new_size MREMAP_MAYMOVE) ;;
            assign (set_addr a) ;;
            m <- this ;;
            if negb (is_valid m) then throw_system_error "mremap failed"
            else assign (set_size new_size)
        | _ => assert false "can't resize anonymous mappings on non-linux systems"
        end
      else
        unmap ;;
        assign (set_size new_size) ;;
        m <- this ;;
        _ <- resize_fd (m_fd m) ;;
        m <- this ;;
        a <- syscall (mmap new_size (get_protection m) (get_flags m)
                           (m_fd m) (m_offset m)) ;;
        assign (set_addr a) ;;
        m <- this ;;
        if negb (is_valid m) then throw_system_error "mmap (remap) failed"
        else ret tt
  end.

(** The accessors. *)
Definition operator_bool (m : MemoryMapping) : bool := is_valid m.
Definition size (m : MemoryMapping) : Z := m_size m.
Definition fd (m : MemoryMapping) : Z := m_fd m.
Definition writable (m : MemoryMapping) : bool :=
  negb (is_readonly (m_mapping_mode m)).
Definition get_addr (m : MemoryMapping) : Z := m_addr m.

(** ** [AnonymousMemoryMapping] *)

Definition AnonymousMemoryMapping_ctor (size : Z) (w : world)
  : outcome MemoryMapping * world :=
  ctor size write_private (-1) 0 w.

(** [resize] is inherited; outside Linux it is declared [= delete], so a
    call of it does not compile: there is no function to call. *)
Definition AnonymousMemoryMapping_resize : option (Z -> M unit) :=
  match target e with
  | Linux => Some resize
  | _ => None
  end.

(** ** [TypedMemoryMapping<T>]: its one member is [m_mapping], on which the
    functions below act; [sizeof_T] is [sizeof(T)]. *)

Section Typed.

Variable sizeof_T : Z.

Definition typed_ctor (size : Z) (w : world) : outcome MemoryMapping * world :=
  ctor (wrap64 (sizeof_T * size)) write_private (-1) 0 w.

Definition typed_ctor_fd (size : Z) (mode : mapping_mode) (fd offset : Z)
    (w : world) : outcome MemoryMapping * world :=
  ctor (wrap64 (sizeof_T * size)) mode fd (to_off_t (wrap64 (sizeof_T * offset))) w.

Definition typed_unmap : M unit := unmap.

Definition typed_resize (new_size : Z) : M unit :=
  resize (wrap64 (sizeof_T * new_size)).

Definition typed_operator_bool (m : MemoryMapping) : bool :=
  negb (negb (operator_bool m)).

Definition typed_size : M Z :=
  m <- this ;;
  assert (size m mod sizeof_T =? 0) "m_mapping.size() % sizeof(T) == 0" ;;
  ret (size m / sizeof_T).

(** The defaulted move constructor, move assignment and destructor are
    those of [m_mapping]. *)
Definition typed_move_ctor : MemoryMapping -> MemoryMapping * MemoryMapping :=
  move_ctor.
Definition typed_move_assign : MemoryMapping -> M MemoryMapping := move_assign.
Definition typed_dtor : M unit := dtor.

(** [AnonymousTypedMemoryMapping<T>] *)
Definition AnonymousTypedMemoryMapping_ctor (size : Z) (w : world)
  : outcome MemoryMapping * world :=
  typed_ctor size w.

Definition AnonymousTypedMemoryMapping_resize : option (Z -> M unit) :=
  match target e with
  | Linux => Some typed_resize
  | _ => None
  end.

End Typed.

(** ** Notions used to state the properties *)

(** An object that holds nothing of the system: it is invalid and, under
    Windows, its mapping handle is null.  This is what a successful
    [unmap()] and a move leave behind. *)
Definition owns_nothing (m : MemoryMapping) : bool :=
  negb (is_valid m) &&
  match target e with
  | Windows => m_handle m =? nullptr
  | _ => true
  end.

(** Two objects describe the same mapping: size, offset, descriptor, mode
    and address agree. *)
Definition same_mapping (a b : MemoryMapping) : Prop :=
  m_size a = m_size b /\ m_offset a = m_offset b /\ m_fd a = m_fd b /\
  m_mapping_mode a = m_mapping_mode b /\ m_addr a = m_addr b.

(** The call ended by throwing [std::system_error]. *)
Definition throws {A : Type} (r : outcome A) : bool :=
  match r with Throw _ _ => true | _ => false end.

(** The calls that release what the object [m] holds. *)
Definition releases (m : MemoryMapping) (c : os_call) : bool :=
  match c with
  | munmap addr len => (addr =? m_addr m) && (len =? m_size m)
  | UnmapViewOfFile addr => addr =? m_addr m
  | CloseHandle h => h =? m_handle m
  | _ => false
  end.

(** The length a call asks the system to map, if it maps. *)
Definition mapped_length (c : os_call) : option Z :=
  match c with
  | mmap len _ _ _ _ => Some len
  | mremap _ _ new_len _ => Some new_len
  | MapViewOfFile _ _ _ _ n => Some n
  | _ => None
  end.

(** The call [c], made after the calls [w], is answered with a failure:
    [MAP_FAILED] from [mmap] and [mremap], non-zero from [munmap], zero
    from the Windows calls, a negative number from the file helpers.  (The
    code does not look at the results of [_setmode] and
    [_get_osfhandle].) *)
Definition call_failed (w : world) (c : os_call) : bool :=
  match c with
  | mmap _ _ _ _ _ | mremap _ _ _ _ => reply e w c =? MAP_FAILED
  | munmap _ _ => negb (reply e w c =? 0)
  | file_size _ | resize_file _ _ => reply e w c <? 0
  | CreateFileMapping _ _ _ _ | MapViewOfFile _ _ _ _ _
  | UnmapViewOfFile _ | CloseHandle _ => reply e w c =? 0
  | setmode _ _ | get_osfhandle _ => false
  end.

(** One of the calls [calls], made one after the other after [w], fails. *)
Fixpoint any_failed (w : world) (calls : list os_call) : bool :=
  match calls with
  | [] => false
  | c :: rest => call_failed w c || any_failed (w ++ [c]) rest
  end.

End Methods.

(** ** Systems to run the code on *)

(** A system on which every call succeeds: mappings are placed at
    0x7f0000000000, files hold 100 bytes. *)
Definition obliging (w : world) (c : os_call) : Z :=
  match c with
  | mmap _ _ _ _ _ => 139637976727552
  | mremap _ _ _ _ => 139637976731648
  | munmap _ _ => 0
  | file_size _ => 100
  | resize_file _ _ => 0
  | setmode _ _ => 0
  | get_osfhandle _ => 7
  | CreateFileMapping _ _ _ _ => 9
  | MapViewOfFile _ _ _ _ _ => 139637976727552
  | UnmapViewOfFile _ => 1
  | CloseHandle _ => 1
  end.

(** The same system, except that it refuses to unmap. *)
Definition unmap_refused (w : world) (c : os_call) : Z :=
  match c with
  | munmap _ _ => -1
  | UnmapViewOfFile _ => 0
  | _ => obliging w c
  end.

(** The obliging system again, except that it maps no view of a file once
    a view has been unmapped. *)
Definition is_unmap_view (c : os_call) : bool :=
  match c with UnmapViewOfFile _ => true | _ => false end.

Definition remap_refused (w : world) (c : os_call) : Z :=
  match c with
  | MapViewOfFile _ _ _ _ _ =>
      if existsb is_unmap_view w then nullptr else obliging w c
  | _ => obliging w c
  end.

(** A machine with pages of 4096 bytes whose [errno] is always [EINVAL]. *)
Definition machine (p : platform) (nd : bool) (os : world -> os_call -> Z)
  : Env :=
  mkEnv p nd 4096 os (fun _ => 22).

(** ** Further members and measures of the mappings *)

(** The deprecated constructor taking a [bool writable] in place of the
    mode. *)
Definition ctor_deprecated (e : Env) (size : Z) (writable : bool) (fd offset : Z)
    (w : world) : outcome MemoryMapping * world :=
  ctor e size (if writable then write_shared else readonly) fd offset w.

(** Every [osmium::resize_file] among the calls comes right after an
    [osmium::file_size] of the same file that was answered with a smaller
    size.  [asked] is the file and the answer of the call before, if that
    was an [osmium::file_size]. *)
Fixpoint grows_only_after (e : Env) (asked : option (Z * Z)) (w : world)
    (calls : list os_call) : bool :=
  match calls with
  | [] => true
  | c :: rest =>
      match c with
      | resize_file d n =>
          match asked with
          | Some (d', answer) => (d' =? d) && (answer <? n)
          | None => false
          end
      | _ => true
      end &&
      grows_only_after e
        (match c with
         | file_size d => Some (d, reply e w c)
         | _ => None
         end)
        (w ++ [c]) rest
  end.

Definition grows_only (e : Env) (w : world) (calls : list os_call) : bool :=
  grows_only_after e None w calls.

(** [TypedMemoryMapping<T>::begin()] and [end()]: the address of the first
    element and the address one past the last; adding [n] to a pointer to
    [T] adds [n * sizeof(T)] to the address. *)
Definition typed_begin (m : MemoryMapping) : Z := get_addr m.

Definition typed_end (e : Env) (sizeof_T : Z) : M Z :=
  m <- this ;;
  n <- typed_size e sizeof_T ;;
  ret (wrap64 (get_addr m + sizeof_T * n)).

End Util.

(* ================================================================== *)
(** * Part IIb: the sparse in-memory multimap and the PBF member types *)
(* ================================================================== *)

Module Multimap.

Local Open Scope Z_scope.

Section SparseMemMultimap.

(** The template parameters: [TId] is an integer type, written [Z]; of the values the class
    uses [operator==] (in [remove]) and [operator<] (in [dump_as_list]),
    and the sizes of the types; [size_t] arithmetic is modulo 2^64. *)
Variable TValue : Type.
Variable value_eqb : TValue -> TValue -> bool.
Variable value_ltb : TValue -> TValue -> bool.
Variables sizeof_TId sizeof_TValue sizeof_pointer sizeof_element_type : Z.

(** [std::multimap<const TId, TValue>]: the elements in the order of
    iteration, which is the order of the keys and, among equal keys, the
    order of insertion. *)
Definition collection_type : Type := list (Z * TValue).

Fixpoint ordered (c : collection_type) : bool :=
  match c with
  | [] => true
  | (k, _) :: rest =>
      match rest with
      | [] => true
      | (k', _) :: _ => (k <=? k') && ordered rest
      end
  end.

(** [std::multimap::emplace]: the new element goes after the elements whose
    key is not greater. *)
Fixpoint emplace (id : Z) (value : TValue) (c : collection_type)
  : collection_type :=
  match c with
  | [] => [(id, value)]
  | (k, x) :: rest =>
      if id <? k then (id, value) :: c
      else (k, x) :: emplace id value rest
  end.

(** [std::multimap::equal_range] cuts the collection in three: the
    elements before [r.first], those from [r.first] up to [r.second], and
    those from [r.second] on. *)
Definition before_range (id : Z) (c : collection_type) : collection_type :=
  filter (fun el => fst el <? id) c.
Definition equal_range (id : Z) (c : collection_type) : collection_type :=
  filter (fun el => fst el =? id) c.
Definition after_range (id : Z) (c : collection_type) : collection_type :=
  filter (fun el => id <? fst el) c.

Definition element_size : Z :=
  Util.wrap64 (sizeof_TId + sizeof_TValue + sizeof_pointer * 4).

Definition unsorted_set (id : Z) (value : TValue) (m_elements : collection_type)
  : collection_type :=
  emplace id value m_elements.

Definition set (id : Z) (value : TValue) (m_elements : collection_type)
  : collection_type :=
  emplace id value m_elements.

Definition get_all (id : Z) (m_elements : collection_type) : collection_type :=
  equal_range id m_elements.

(** The loop of [remove]: the first element of the range whose value
    equals [value] is erased, and the function returns. *)
Fixpoint erase_first (value : TValue) (range : collection_type)
  : collection_type :=
  match range with
  | [] => []
  | el :: rest =>
      if value_eqb (snd el) value then rest
      else el :: erase_first value rest
  end.

Definition remove (id : Z) (value : TValue) (m_elements : collection_type)
  : collection_type :=
  before_range id m_elements ++
  erase_first value (get_all id m_elements) ++
  after_range id m_elements.

Definition size (m_elements : collection_type) : Z :=
  Z.of_nat (length m_elements).

Definition used_memory (m_elements : collection_type) : Z :=
  Util.wrap64 (element_size * size m_elements).

Definition clear (m_elements : collection_type) : collection_type := [].

Definition consolidate (m_elements : collection_type) : collection_type :=
  m_elements.

(** [operator<] of [std::pair<TId, TValue>]. *)
Definition element_ltb (a b : Z * TValue) : bool :=
  (fst a <? fst b) || (negb (fst b <? fst a) && value_ltb (snd a) (snd b)).

(** [std::sort(v.begin(), v.end())], as a sort by insertion. *)
Fixpoint insert_sorted (x : Z * TValue) (v : list (Z * TValue))
  : list (Z * TValue) :=
  match v with
  | [] => [x]
  | y :: rest =>
      if element_ltb y x then y :: insert_sorted x rest else x :: v
  end.

Fixpoint sort (v : list (Z * TValue)) : list (Z * TValue) :=
  match v with
  | [] => []
  | x :: rest => insert_sorted x (sort rest)
  end.

(** [dump_as_list(fd)]: the call of [reliable_write] it makes: the
    descriptor, the elements of the sorted vector, and the number of
    bytes. *)
Definition dump_as_list (fd : Z) (m_elements : collection_type)
  : Z * list (Z * TValue) * Z :=
  (fd, sort m_elements,
   Util.wrap64 (sizeof_element_type * Z.of_nat (length (sort m_elements)))).

End SparseMemMultimap.

End Multimap.

Module Pbf.

(** [OSMPBF::Relation::MemberType] and [osmium::item_type]: the enumerators
    the two functions name, and every other value of the types. *)
Inductive MemberType : Type :=
| NODE | WAY | RELATION
| MemberType_other (value : Z).

Inductive item_type : Type :=
| node | way | relation
| item_type_other (value : Z).

(** A call returns, or it throws [std::runtime_error(what)]. *)
Inductive result (A : Type) : Type :=
| Returns (a : A)
| ThrowsRuntimeError (what : string).
Arguments Returns {A} a.
Arguments ThrowsRuntimeError {A} what.

Definition osmpbf_membertype_to_item_type (mt : MemberType) : result item_type :=
  match mt with
  | NODE => Returns node
  | WAY => Returns way
  | RELATION => Returns relation
  | MemberType_other _ => ThrowsRuntimeError "Unknown relation member type"
  end.

Definition item_type_to_osmpbf_membertype (type : item_type) : result MemberType :=
  match type with
  | node => Returns NODE
  | way => Returns WAY
  | relation => Returns RELATION
  | item_type_other _ => ThrowsRuntimeError "Unknown relation member type"
  end.

End Pbf.

(* ================================================================== *)
(** * Part III: properties of the read pipeline *)
(* ================================================================== *)

Module ReadThreadProps.

Import ReadThread.

Lemma run_app (a b : list actor) (s : state) :
  run (a ++ b) s = run b (run a s).
Proof. apply fold_left_app. Qed.

Lemma run_cons (a : actor) (l : list actor) (s : state) :
  run (a :: l) s = run l (act a s).
Proof. reflexivity. Qed.

Lemma uncancelled_app (a b : list actor) :
  uncancelled a -> uncancelled b -> uncancelled (a ++ b).
Proof.
  unfold uncancelled. intros Ha Hb. rewrite forallb_app, Ha, Hb. reflexivity.
Qed.

Lemma sentinels_push (data : string) (s : state) :
  sentinels (push data s) = sentinels s + (if empty data then 1 else 0).
Proof.
  unfold sentinels, push; simpl. rewrite filter_app, length_app. simpl.
  destruct (empty data); reflexivity.
Qed.

(** An invariant that every actor preserves holds along every schedule. *)
Lemma run_invariant (I : state -> Prop) :
  (forall a s, I s -> I (act a s)) ->
  forall sched s, I s -> I (run sched s).
Proof.
  intros step sched. induction sched as [|a sched IH]; intros s Hs.
  - exact Hs.
  - rewrite run_cons. apply IH, step, Hs.
Qed.

(** The same along schedules that never cancel. *)
Lemma run_invariant_uncancelled (I : state -> Prop) :
  (forall s, I s -> I (act Producer s)) ->
  (forall s, I s -> I (act Consumer s)) ->
  forall sched s, uncancelled sched -> I s -> I (run sched s).
Proof.
  intros HP HC sched. induction sched as [|a sched IH]; intros s Hu Hs.
  - exact Hs.
  - rewrite run_cons. unfold uncancelled in Hu. simpl in Hu.
    apply andb_true_iff in Hu. destruct Hu as [Ha Hu].
    apply IH; [exact Hu|].
    destruct a; [apply HP | apply HC | discriminate Ha]; exact Hs.
Qed.

Ltac break_state s :=
  destruct s as [l q d sc cf pu po cl ex]; simpl in *.

(** *** The control invariant *)

Lemma ctl_inv_init (sc : list read_result) (cf : bool) : ctl_inv (init sc cf).
Proof. repeat split. Qed.

Lemma ctl_inv_producer (s : state) : ctl_inv s -> ctl_inv (act Producer s).
Proof.
  break_state s.
  unfold act, producer_step, read, close, ctl_inv, left_normally, sentinels;
    simpl.
  destruct l; simpl.
  - destruct d; simpl; intuition.
  - destruct sc as [|[data|] rest]; simpl; intuition.
  - destruct (empty data) eqn:He; simpl;
      rewrite filter_app, length_app; simpl; rewrite He; simpl; intuition lia.
  - destruct (10 <? length q); simpl; intuition.
  - destruct d; simpl; intuition.
  - destruct cf; simpl; intuition.
  - rewrite filter_app, length_app; simpl. intuition lia.
  - trivial.
  - trivial.
Qed.

Lemma ctl_inv_others (a : actor) (s : state) :
  a <> Producer -> ctl_inv s -> ctl_inv (act a s).
Proof.
  intros Ha H. destruct a; [congruence | |exact H].
  unfold act, consumer_pop.
  destruct (saw_sentinel s); [exact H|].
  destruct (m_queue s); exact H.
Qed.

Lemma ctl_inv_run (sc : list read_result) (cf : bool) (sched : list actor) :
  ctl_inv (pipeline sc cf sched).
Proof.
  unfold pipeline. apply run_invariant; [|apply ctl_inv_init].
  intros a s H. destruct a.
  - apply ctl_inv_producer, H.
  - apply ctl_inv_others; [discriminate | exact H].
  - apply ctl_inv_others; [discriminate | exact H].
Qed.

Lemma close_throws_run (sc : list read_result) (cf : bool) (sched : list actor) :
  close_throws (pipeline sc cf sched) = cf.
Proof.
  unfold pipeline. apply (run_invariant (fun s => close_throws s = cf)); [|reflexivity].
  intros a s H. destruct a; unfold act.
  - unfold producer_step, read, close.
    destruct (at_pc s); try exact H.
    + destruct (m_done s); exact H.
    + destruct (script s) as [|[data|] rest]; exact H.
    + destruct (empty data); exact H.
    + destruct (10 <? length (m_queue s)); exact H.
    + destruct (negb (m_done s)); exact H.
    + destruct (close_throws s); exact H.
  - unfold consumer_pop. destruct (saw_sentinel s); [exact H|].
    destruct (m_queue s); exact H.
  - exact H.
Qed.

(** *** First in, first out *)

Lemma fifo_inv_init (sc : list read_result) (cf : bool) : fifo_inv (init sc cf).
Proof. split; reflexivity. Qed.

Lemma existsb_empty_snoc (l : list string) (x : string) :
  existsb empty (l ++ [x]) = existsb empty l || empty x.
Proof. rewrite existsb_app. simpl. rewrite orb_false_r. reflexivity. Qed.

Lemma fifo_inv_act (a : actor) (s : state) : fifo_inv s -> fifo_inv (act a s).
Proof.
  break_state s. unfold fifo_inv; simpl. intros [Hq Hp]. subst pu.
  destruct a; unfold act.
  - unfold producer_step, read, close; simpl.
    destruct l; simpl; auto.
    + destruct d; simpl; auto.
    + destruct sc as [|[data|] rest]; simpl; auto.
    + destruct (empty data); simpl; rewrite <- app_assoc; auto.
    + destruct (10 <? length q); simpl; auto.
    + destruct d; simpl; auto.
    + destruct cf; simpl; auto.
    + rewrite <- app_assoc; auto.
  - unfold consumer_pop, saw_sentinel; simpl.
    destruct (existsb empty po) eqn:Hs; simpl; [auto|].
    destruct q as [|data rest]; simpl; [auto|].
    split.
    + rewrite <- app_assoc. reflexivity.
    + rewrite removelast_last. exact Hs.
  - simpl. auto.
Qed.

Lemma fifo_inv_run (sc : list read_result) (cf : bool) (sched : list actor) :
  fifo_inv (pipeline sc cf sched).
Proof.
  unfold pipeline. apply run_invariant; [|apply fifo_inv_init].
  intros a s. apply fifo_inv_act.
Qed.

(** *** Lists that end in the only sentinel *)

Lemma sentinel_is_last (chunks p rest : list string) (data : string) :
  nonempty chunks ->
  chunks ++ [EmptyString] = p ++ data :: rest ->
  empty data = true ->
  rest = [] /\ p = chunks.
Proof.
  unfold nonempty. revert p.
  induction chunks as [|c cs IH]; intros p Hn Heq He.
  - destruct p as [|x p]; simpl in Heq.
    + injection Heq as _ Hr. auto.
    + injection Heq as _ Hr. destruct p; discriminate Hr.
  - simpl in Hn. apply andb_true_iff in Hn. destruct Hn as [Hc Hn].
    destruct p as [|x p]; simpl in Heq.
    + injection Heq as Hd _. subst data. rewrite He in Hc. discriminate Hc.
    + injection Heq as Hx Heq. subst x.
      destruct (IH p Hn Heq He) as [Hr Hp]. subst. auto.
Qed.

Lemma last_is_sentinel (chunks p : list string) (data : string) :
  chunks ++ [EmptyString] = p ++ [data] -> data = EmptyString /\ p = chunks.
Proof.
  intros H. apply app_inj_tail in H. destruct H; subst; auto.
Qed.

Lemma popped_is_prefix (chunks po q tl : list string) :
  nonempty chunks ->
  po ++ q = chunks ++ EmptyString :: tl ->
  existsb empty (removelast po) = false ->
  exists r, chunks ++ [EmptyString] = po ++ r.
Proof.
  unfold nonempty. revert po.
  induction chunks as [|c cs IH]; intros po Hn Heq Hp.
  - destruct po as [|x po]; [exists [EmptyString]; reflexivity|].
    simpl in Heq. injection Heq as Hx Heq. subst x.
    destruct po as [|y po]; [exists []; reflexivity|].
    simpl in Hp. discriminate Hp.
  - simpl in Hn. apply andb_true_iff in Hn. destruct Hn as [Hc Hn].
    destruct po as [|x po]; [eexists; reflexivity|].
    simpl in Heq. injection Heq as Hx Heq. subst x.
    destruct po as [|y po]; [exists (cs ++ [EmptyString]); reflexivity|].
    destruct (IH (y :: po) Hn Heq) as [r Hr].
    + change (removelast (c :: y :: po)) with (c :: removelast (y :: po)) in Hp.
      simpl in Hp. apply orb_false_iff in Hp. apply Hp.
    + exists r. simpl. simpl in Hr. rewrite Hr. reflexivity.
Qed.

Lemma prefix_with_sentinel_is_all (chunks po r : list string) :
  nonempty chunks ->
  chunks ++ [EmptyString] = po ++ r ->
  existsb empty po = true ->
  r = [].
Proof.
  unfold nonempty. revert po.
  induction chunks as [|c cs IH]; intros po Hn Heq Hp.
  - destruct po as [|x po]; [discriminate Hp|].
    simpl in Heq. injection Heq as _ Heq.
    destruct po; [simpl in Heq; auto | discriminate Heq].
  - simpl in Hn. apply andb_true_iff in Hn. destruct Hn as [Hc Hn].
    destruct po as [|x po]; [discriminate Hp|].
    simpl in Heq. injection Heq as Hx Heq. subst x.
    simpl in Hp. apply negb_true_iff in Hc. rewrite Hc in Hp. simpl in Hp.
    exact (IH po Hn Heq Hp).
Qed.

(** *** What has been pushed, while nobody cancels *)

Lemma flow_inv_init (chunks : list string) (cf : bool) :
  flow_inv chunks (init (stream chunks) cf).
Proof.
  split; [reflexivity|]. simpl.
  exists (chunks ++ [EmptyString]). repeat split.
  - unfold stream. rewrite map_app. reflexivity.
  - destruct chunks; discriminate.
Qed.

Lemma flow_inv_producer (chunks : list string) (s : state) :
  nonempty chunks -> flow_inv chunks s -> flow_inv chunks (act Producer s).
Proof.
  intros Hn. break_state s.
  unfold act, producer_step, read, close, flow_inv; simpl.
  intros [Hd H]. subst d. destruct l; simpl.
  - auto.
  - destruct H as (rest & Ha & Hs & Hr). subst sc.
    destruct rest as [|data rest]; [congruence|]. simpl.
    split; [reflexivity|]. exists rest. auto.
  - destruct H as (rest & Ha & Hs).
    destruct (empty data) eqn:He; simpl; (split; [reflexivity|]).
    + destruct (sentinel_is_last _ _ _ _ Hn Ha He) as [Hr Hp]. subst.
      destruct data; [reflexivity | discriminate He].
    + exists rest. rewrite <- app_assoc. simpl. repeat split; auto.
      intros Hr. subst rest.
      apply last_is_sentinel in Ha. destruct Ha as [Ha _]. subst data.
      discriminate He.
  - destruct (10 <? length q); simpl; auto.
  - simpl. auto.
  - destruct cf; simpl; auto.
  - split; [reflexivity|]. rewrite H. reflexivity.
  - auto.
  - auto.
Qed.

Lemma flow_inv_consumer (chunks : list string) (s : state) :
  flow_inv chunks s -> flow_inv chunks (act Consumer s).
Proof.
  unfold act, consumer_pop.
  destruct (saw_sentinel s); [auto|].
  destruct (m_queue s); auto.
Qed.

Lemma flow_inv_run (chunks : list string) (cf : bool) (sched : list actor) :
  nonempty chunks -> uncancelled sched ->
  flow_inv chunks (pipeline (stream chunks) cf sched).
Proof.
  intros Hn Hu. unfold pipeline.
  apply run_invariant_uncancelled; [| |exact Hu|apply flow_inv_init].
  - intros s. apply flow_inv_producer, Hn.
  - intros s. apply flow_inv_consumer.
Qed.

(** What the consumer has popped is a prefix of the chunks and the
    sentinel. *)
Lemma popped_prefix_of_stream (chunks : list string) (s : state) :
  nonempty chunks -> flow_inv chunks s -> fifo_inv s ->
  exists r, chunks ++ [EmptyString] = popped s ++ r.
Proof.
  intros Hn [_ Hf] [Hq Hp].
  destruct (at_pc s).
  1,2,4,5: destruct Hf as (rest & Ha & _);
    exists (m_queue s ++ rest); rewrite app_assoc, <- Hq; exact Ha.
  - destruct Hf as (rest & Ha & _).
    exists (m_queue s ++ data :: rest). rewrite app_assoc, <- Hq. exact Ha.
  - exists (m_queue s). rewrite <- Hq. auto.
  - exists (m_queue s). rewrite <- Hq. auto.
  - exists (m_queue s). rewrite <- Hq. auto.
  - rewrite Hq in Hf. rewrite <- app_assoc in Hf. simpl in Hf.
    exact (popped_is_prefix _ _ _ _ Hn Hf Hp).
Qed.

(** *** The pipeline can always run to its end *)

Lemma existsb_filter_length {A : Type} (f : A -> bool) (l : list A) :
  existsb f l = true -> 0 < length (filter f l).
Proof.
  induction l as [|x l IH]; simpl; [discriminate|].
  destruct (f x); simpl; [lia | exact IH].
Qed.

(** No sentinel has been popped while the producer is inside its loop. *)
Lemma in_loop_no_sentinel_popped (s : state) :
  ctl_inv s -> fifo_inv s -> sentinels s = 0 -> saw_sentinel s = false.
Proof.
  unfold saw_sentinel, sentinels. intros _ [Hq _] H0.
  destruct (existsb empty (popped s)) eqn:He; [|reflexivity].
  apply existsb_filter_length in He.
  rewrite Hq, filter_app, length_app in H0. lia.
Qed.

(** Unless the pipeline is through, the consumer or the producer can take a
    step that decreases the measure. *)
Lemma step_down (s : state) :
  ctl_inv s -> fifo_inv s ->
  quiescent s \/
  measure (act Consumer s) < measure s \/
  measure (act Producer s) < measure s.
Proof.
  intros Hc Hf.
  assert (Hloop : sentinels s = 0 -> saw_sentinel s = false)
    by (apply in_loop_no_sentinel_popped; assumption).
  revert Hc Hloop. clear Hf. break_state s.
  unfold quiescent, terminated, measure, act, consumer_pop, producer_step,
    read, close, saw_sentinel, ctl_inv, sentinels; simpl.
  intros Hc Hloop.
  destruct (existsb empty po) eqn:Hs; simpl.
  - (* the consumer has seen the sentinel: the producer is past its loop *)
    destruct l; simpl;
      try (destruct Hc as (_ & _ & H0); specialize (Hloop H0); discriminate).
    + right; right. destruct cf; simpl; lia.
    + right; right. rewrite length_app. simpl. lia.
    + auto.
    + auto.
  - destruct q as [|data' rest']; simpl; [|right; left; lia].
    destruct l; simpl; auto; right; right.
    + destruct d; simpl; lia.
    + destruct sc as [|[data|] rest]; simpl; try lia.
      destruct (empty data); lia.
    + destruct (empty data); simpl; lia.
    + lia.
    + destruct d; simpl; lia.
    + destruct cf; simpl; lia.
    + lia.
Qed.

Lemma runs_to_end_bounded (n : nat) :
  forall s, measure s <= n -> ctl_inv s -> fifo_inv s ->
  exists more, uncancelled more /\ quiescent (run more s) /\
               ctl_inv (run more s) /\ fifo_inv (run more s).
Proof.
  induction n as [|n IH]; intros s Hm Hc Hf;
    destruct (step_down s Hc Hf) as [Hq|[Hd|Hd]].
  1,4: exists []; split; [reflexivity | split; [exact Hq | split; assumption]].
  1,2: lia.
  - destruct (IH (act Consumer s)) as (more & Hu & Hq & Hc' & Hf');
      [lia | apply ctl_inv_others; [discriminate|exact Hc] | apply fifo_inv_act, Hf |].
    exists (Consumer :: more). rewrite run_cons. auto.
  - destruct (IH (act Producer s)) as (more & Hu & Hq & Hc' & Hf');
      [lia | apply ctl_inv_producer, Hc | apply fifo_inv_act, Hf |].
    exists (Producer :: more). rewrite run_cons. auto.
Qed.

(** From every state of the pipeline, cancelled or not, the producer and
    the consumer can run to the end. *)
Lemma runs_to_end (sc : list read_result) (cf : bool) (sched : list actor) :
  exists more, uncancelled more /\ quiescent (pipeline sc cf (sched ++ more)).
Proof.
  destruct (runs_to_end_bounded _ (pipeline sc cf sched) (le_n _)
              (ctl_inv_run sc cf sched) (fifo_inv_run sc cf sched))
    as (more & Hu & Hq & _).
  exists more. unfold pipeline in *. rewrite run_app. auto.
Qed.

Lemma observed_all_when_seen (chunks : list string) (s : state) :
  nonempty chunks -> flow_inv chunks s -> fifo_inv s ->
  saw_sentinel s = true -> popped s = chunks ++ [EmptyString].
Proof.
  intros Hn Hfl Hff Hs.
  destruct (popped_prefix_of_stream chunks s Hn Hfl Hff) as [r Hr].
  rewrite (prefix_with_sentinel_is_all chunks (popped s) r Hn Hr Hs) in Hr.
  rewrite app_nil_r in Hr. symmetry. exact Hr.
Qed.

Lemma observed_all_at_end (chunks : list string) (s : state) :
  nonempty chunks -> flow_inv chunks s -> fifo_inv s ->
  quiescent s -> popped s = chunks ++ [EmptyString].
Proof.
  intros Hn Hfl Hff [Ht Hpop].
  destruct (saw_sentinel s) eqn:Hs;
    [exact (observed_all_when_seen chunks s Hn Hfl Hff Hs)|].
  assert (Hq : m_queue s = []).
  { unfold consumer_pop in Hpop. rewrite Hs in Hpop.
    destruct (m_queue s); [reflexivity | discriminate]. }
  destruct Hfl as [_ Hfl]. destruct Hff as [Hpu Hlast].
  rewrite Hq, app_nil_r in Hpu. unfold terminated in Ht.
  destruct (at_pc s); try discriminate Ht.
  - congruence.
  - rewrite <- Hpu, Hfl, removelast_last, existsb_empty_snoc in Hlast.
    rewrite orb_true_r in Hlast. discriminate Hlast.
Qed.

(** ** The claims about the read pipeline *)

(** C1, as the code has it: when the producer has ended, the sentinel has
    been pushed exactly once if the loop was left at the end of the stream
    (and [close()] did not throw) or because [read()] threw; it has not
    been pushed at all if the loop was left because the cancellation flag
    was set (and [close()] did not throw).  The loop is left in one of
    these three ways. *)
Theorem sentinel_pushed_unless_cancelled
    (sc : list read_result) (cf : bool) (sched : list actor) :
  terminated (pipeline sc cf sched) = true ->
  (exited (pipeline sc cf sched) = Some EndOfStream -> cf = false ->
   sentinels (pipeline sc cf sched) = 1) /\
  (exited (pipeline sc cf sched) = Some ReadFailed ->
   sentinels (pipeline sc cf sched) = 1) /\
  (exited (pipeline sc cf sched) = Some Cancelled -> cf = false ->
   sentinels (pipeline sc cf sched) = 0) /\
  exited (pipeline sc cf sched) <> None.
Proof.
  pose proof (ctl_inv_run sc cf sched) as Hc.
  pose proof (close_throws_run sc cf sched) as Hcf.
  revert Hc Hcf. generalize (pipeline sc cf sched). intros s Hc Hcf Ht.
  unfold terminated in Ht. unfold ctl_inv, left_normally in Hc.
  destruct (at_pc s); try discriminate Ht.
  - destruct Hc as (_ & _ & [[He Hn]|[He Hn]]); rewrite He, Hn;
      repeat split; intros; congruence.
  - destruct Hc as [(He & _ & Hn)|(Hthrow & _ & [[He Hn]|[He Hn]])];
      rewrite He, Hn; repeat split; intros; congruence.
Qed.

(** C1 fails as stated: the flag is set after the first chunk has been
    pushed; the producer sees it at the loop test, closes the Decompressor
    and returns, and no sentinel has been pushed. *)
Lemma cancelled_run_pushes_no_sentinel :
  terminated (pipeline (stream ["a"%string; "b"%string]) false
                [Producer; Producer; Producer; Producer; Canceller;
                 Producer; Producer]) = true /\
  exited (pipeline (stream ["a"%string; "b"%string]) false
            [Producer; Producer; Producer; Producer; Canceller;
             Producer; Producer]) = Some Cancelled /\
  pushed (pipeline (stream ["a"%string; "b"%string]) false
            [Producer; Producer; Producer; Producer; Canceller;
             Producer; Producer]) = ["a"%string] /\
  sentinels (pipeline (stream ["a"%string; "b"%string]) false
               [Producer; Producer; Producer; Producer; Canceller;
                Producer; Producer]) = 0.
Proof. repeat split. Qed.

Lemma sentinel_pushed_unless_cancelled_witness :
  sentinels (pipeline [Data "a"%string; ReadThrows] false
               [Producer; Producer; Producer; Producer; Producer;
                Producer; Producer]) = 1.
Proof.
  exact (proj1 (proj2
    (sentinel_pushed_unless_cancelled [Data "a"%string; ReadThrows] false
       [Producer; Producer; Producer; Producer; Producer; Producer; Producer]
       eq_refl)) eq_refl).
Defined.

(** C2, as the code has it: when the producer has ended, [close()] has been
    called exactly once if the loop was left at the end of the stream or by
    cancellation, and not at all if it was left because [read()] threw. *)
Theorem close_called_unless_read_failed
    (sc : list read_result) (cf : bool) (sched : list actor) :
  terminated (pipeline sc cf sched) = true ->
  closes (pipeline sc cf sched) =
  match exited (pipeline sc cf sched) with
  | Some ReadFailed => 0
  | _ => 1
  end.
Proof.
  pose proof (ctl_inv_run sc cf sched) as Hc.
  revert Hc. generalize (pipeline sc cf sched). intros s Hc Ht.
  unfold terminated in Ht. unfold ctl_inv, left_normally in Hc.
  destruct (at_pc s); try discriminate Ht.
  - destruct Hc as (_ & Hn & [[He _]|[He _]]); rewrite He, Hn; reflexivity.
  - destruct Hc as [(He & Hn & _)|(_ & Hn & [[He _]|[He _]])];
      rewrite He, Hn; reflexivity.
Qed.

(** C2 fails as stated: the second [read()] throws; control goes to the
    handler, which pushes the sentinel and rethrows, and [close()] has not
    been called. *)
Lemma read_failure_skips_close :
  terminated (pipeline [Data "a"%string; ReadThrows] true
                [Producer; Producer; Producer; Producer; Producer;
                 Producer; Producer]) = true /\
  exited (pipeline [Data "a"%string; ReadThrows] true
            [Producer; Producer; Producer; Producer; Producer;
             Producer; Producer]) = Some ReadFailed /\
  closes (pipeline [Data "a"%string; ReadThrows] true
            [Producer; Producer; Producer; Producer; Producer;
             Producer; Producer]) = 0.
Proof. repeat split. Qed.

Lemma close_called_unless_read_failed_witness :
  closes (pipeline (stream ["a"%string]) false
            [Producer; Producer; Producer; Producer; Canceller;
             Producer; Producer]) = 1.
Proof.
  exact (close_called_unless_read_failed (stream ["a"%string]) false
           [Producer; Producer; Producer; Producer; Canceller;
            Producer; Producer] eq_refl).
Defined.

(** C3: the Decompressor delivers the non-empty [chunks] and then the empty
    chunk, and nobody cancels.  Then, however the producer and the consumer
    are interleaved, what the consumer has popped is at every moment a
    prefix of [chunks] followed by the sentinel; once it has popped the
    sentinel it has popped exactly [chunks] and the sentinel, in this order;
    and the threads can always go on to the end, where the consumer has
    popped exactly that and pops no more. *)
Theorem consumer_observes_stream_in_order
    (chunks : list string) (cf : bool) (sched : list actor) :
  nonempty chunks -> uncancelled sched ->
  (exists rest,
     chunks ++ [EmptyString] = popped (pipeline (stream chunks) cf sched) ++ rest) /\
  (saw_sentinel (pipeline (stream chunks) cf sched) = true ->
   popped (pipeline (stream chunks) cf sched) = chunks ++ [EmptyString]) /\
  (exists more,
     uncancelled more /\
     quiescent (pipeline (stream chunks) cf (sched ++ more)) /\
     popped (pipeline (stream chunks) cf (sched ++ more)) =
     chunks ++ [EmptyString]).
Proof.
  intros Hn Hu.
  pose proof (flow_inv_run chunks cf sched Hn Hu) as Hfl.
  pose proof (fifo_inv_run (stream chunks) cf sched) as Hff.
  split; [exact (popped_prefix_of_stream chunks _ Hn Hfl Hff)|].
  split; [exact (observed_all_when_seen chunks _ Hn Hfl Hff)|].
  destruct (runs_to_end (stream chunks) cf sched) as (more & Hm & Hq).
  exists more. split; [exact Hm|]. split; [exact Hq|].
  apply observed_all_at_end; [exact Hn | | apply fifo_inv_run | exact Hq].
  apply flow_inv_run; [exact Hn | apply uncancelled_app; assumption].
Qed.

Lemma consumer_observes_stream_in_order_witness :
  popped (pipeline (stream ["a"%string; "b"%string; "c"%string]) false
            [Producer; Producer; Producer; Consumer; Producer;
             Producer; Producer; Producer; Producer;
             Producer; Producer; Producer; Producer;
             Producer; Producer; Producer; Producer; Producer;
             Consumer; Consumer; Consumer; Consumer; Consumer]) =
  ["a"%string; "b"%string; "c"%string; EmptyString].
Proof.
  exact (proj1 (proj2
    (consumer_observes_stream_in_order
       ["a"%string; "b"%string; "c"%string] false
       [Producer; Producer; Producer; Consumer; Producer;
        Producer; Producer; Producer; Producer;
        Producer; Producer; Producer; Producer;
        Producer; Producer; Producer; Producer; Producer;
        Consumer; Consumer; Consumer; Consumer; Consumer]
       eq_refl eq_refl)) eq_refl).
Defined.

End ReadThreadProps.

(* ================================================================== *)
(** * Part IV: properties of the memory mappings *)
(* ================================================================== *)

Module MemoryMappingProps.

Import Util.

Local Open Scope Z_scope.

(** *** Tactics *)

(** Unfolds the little monad. *)
Ltac monad :=
  unfold bind, ret, this, assign, syscall, throw_system_error, abort,
    try_ignore, noexcept in *; simpl in *.

Ltac split_ifs :=
  repeat match goal with
         | |- context [if ?b then _ else _] => destruct b eqn:?; simpl
         end.

Ltac use_tests :=
  repeat match goal with
         | H : negb (negb _) = _ |- _ => rewrite negb_involutive in H
         end;
  repeat match goal with
         | H : ?t = true |- context [?t] => rewrite H
         | H : ?t = false |- context [?t] => rewrite H
         end.

Lemma snoc_app {A : Type} (x : list A) (a : A) (l : list A) :
  (x ++ [a]) ++ l = x ++ a :: l.
Proof. rewrite <- app_assoc. reflexivity. Qed.

(** [((w ++ [a]) ++ [b]) ++ [c] = w ++ ?calls], without touching the calls. *)
Ltac world_eq :=
  simpl; repeat (etransitivity; [apply snoc_app|]); reflexivity.

(** Closes a goal [exists calls, w' = w ++ calls /\ (any_failed ... -> ...)]
    once the code has been run along one path. *)
Ltac one_path :=
  first
    [ exists []; split;
      [ simpl; rewrite app_nil_r; reflexivity
      | simpl; intros; discriminate ]
    | eexists; split;
      [ world_eq
      | simpl; unfold call_failed; use_tests; simpl;
        solve [ reflexivity | discriminate | intros; discriminate | auto ] ] ].

(** Closes [negb b = true] from the test [b] that the code made. *)
Ltac by_test :=
  repeat match goal with
         | H : negb (negb _) = _ |- _ => rewrite negb_involutive in H
         end;
  match goal with
  | H : ?b = false |- negb ?b = true => rewrite H; reflexivity
  end.

Ltac run_code :=
  unfold resize, ctor, ctor_body, unmap, resize_fd, osmium_file_size,
    osmium_resize_file, create_file_mapping, map_view_of_file, get_handle,
    assert, is_valid, make_invalid, invalid_address, nullptr;
  monad; rewrite ?negb_involutive.

Section WithEnv.

Variable e : Env.

Lemma is_valid_make_invalid (m : MemoryMapping) :
  is_valid e (make_invalid e m) = false.
Proof. unfold is_valid, make_invalid; simpl. rewrite Z.eqb_refl. reflexivity. Qed.

Lemma is_valid_set_handle (h : Z) (m : MemoryMapping) :
  is_valid e (set_handle h m) = is_valid e m.
Proof. reflexivity. Qed.

Lemma invalid_addr (m : MemoryMapping) :
  is_valid e m = false -> m_addr m = invalid_address e.
Proof.
  unfold is_valid. intros H. apply negb_false_iff, Z.eqb_eq in H. exact H.
Qed.

(** *** [unmap()] *)

Lemma unmap_posix (m : MemoryMapping) (w : world) :
  target e <> Windows ->
  unmap e (m, w) =
  if is_valid e m then
    if negb (reply e w (munmap (m_addr m) (m_size m)) =? 0)
    then (Throw (last_error e (w ++ [munmap (m_addr m) (m_size m)])) "munmap failed",
          (m, w ++ [munmap (m_addr m) (m_size m)]))
    else (Ok tt, (make_invalid e m, w ++ [munmap (m_addr m) (m_size m)]))
  else (Ok tt, (m, w)).
Proof.
  intros Hp. unfold unmap.
  destruct (target e); [| |congruence]; monad;
    destruct (is_valid e m); simpl; try reflexivity;
    destruct (reply e w (munmap (m_addr m) (m_size m)) =? 0); reflexivity.
Qed.

Lemma unmap_windows (m : MemoryMapping) (w : world) :
  target e = Windows ->
  unmap e (m, w) =
  if is_valid e m then
    if reply e w (UnmapViewOfFile (m_addr m)) =? 0
    then (Throw (last_error e (w ++ [UnmapViewOfFile (m_addr m)]))
                "UnmapViewOfFile failed",
          (m, w ++ [UnmapViewOfFile (m_addr m)]))
    else if negb (m_handle m =? nullptr) then
      if reply e (w ++ [UnmapViewOfFile (m_addr m)]) (CloseHandle (m_handle m)) =? 0
      then (Throw (last_error e ((w ++ [UnmapViewOfFile (m_addr m)]) ++
                                   [CloseHandle (m_handle m)]))
                  "CloseHandle failed",
            (make_invalid e m,
             (w ++ [UnmapViewOfFile (m_addr m)]) ++ [CloseHandle (m_handle m)]))
      else (Ok tt, (set_handle nullptr (make_invalid e m),
                    (w ++ [UnmapViewOfFile (m_addr m)]) ++ [CloseHandle (m_handle m)]))
    else (Ok tt, (make_invalid e m, w ++ [UnmapViewOfFile (m_addr m)]))
  else if negb (m_handle m =? nullptr) then
    if reply e w (CloseHandle (m_handle m)) =? 0
    then (Throw (last_error e (w ++ [CloseHandle (m_handle m)])) "CloseHandle failed",
          (m, w ++ [CloseHandle (m_handle m)]))
    else (Ok tt, (set_handle nullptr m, w ++ [CloseHandle (m_handle m)]))
  else (Ok tt, (m, w)).
Proof.
  intros Hp. unfold unmap. rewrite Hp. monad.
  destruct (is_valid e m); simpl.
  - destruct (reply e w (UnmapViewOfFile (m_addr m)) =? 0); simpl; [reflexivity|].
    destruct (m_handle m =? nullptr); simpl; [reflexivity|].
    destruct (reply e (w ++ [UnmapViewOfFile (m_addr m)]) (CloseHandle (m_handle m)) =? 0);
      reflexivity.
  - destruct (m_handle m =? nullptr); simpl; [reflexivity|].
    destruct (reply e w (CloseHandle (m_handle m)) =? 0); reflexivity.
Qed.

Lemma unmap_owns_nothing (m : MemoryMapping) (w : world) :
  owns_nothing e m = true -> unmap e (m, w) = (Ok tt, (m, w)).
Proof.
  unfold owns_nothing. intros H. apply andb_true_iff in H. destruct H as [Hv Hh].
  apply negb_true_iff in Hv.
  destruct (target e) eqn:Hp.
  - rewrite unmap_posix, Hv by congruence. reflexivity.
  - rewrite unmap_posix, Hv by congruence. reflexivity.
  - rewrite unmap_windows, Hv, Hh by exact Hp. reflexivity.
Qed.

Lemma unmap_leaves_nothing (m m' : MemoryMapping) (w w' : world) :
  unmap e (m, w) = (Ok tt, (m', w')) -> owns_nothing e m' = true.
Proof.
  unfold owns_nothing.
  destruct (target e) eqn:Hp.
  1,2: rewrite unmap_posix by congruence;
    destruct (is_valid e m) eqn:Hv;
    [destruct (negb _); [discriminate|] |];
    intros H; injection H as <- _;
    rewrite ?is_valid_make_invalid, ?Hv; reflexivity.
  rewrite unmap_windows by exact Hp.
  destruct (is_valid e m) eqn:Hv.
  - destruct (reply e w _ =? 0); [discriminate|].
    destruct (m_handle m =? nullptr) eqn:Hh; simpl.
    + intros H; injection H as <- _.
      rewrite is_valid_make_invalid. simpl. exact Hh.
    + destruct (reply e _ _ =? 0); [discriminate|].
      intros H; injection H as <- _.
      rewrite is_valid_set_handle, is_valid_make_invalid. reflexivity.
  - destruct (m_handle m =? nullptr) eqn:Hh; simpl.
    + intros H; injection H as <- _. rewrite Hv. simpl. exact Hh.
    + destruct (reply e _ _ =? 0); [discriminate|].
      intros H; injection H as <- _.
      rewrite is_valid_set_handle, Hv. reflexivity.
Qed.

(** *** Moves *)

Lemma take_over_eq (other m : MemoryMapping) (w : world) :
  take_over e other (m, w) =
  (Ok (snd (move_ctor e other)),
   (mkMapping (m_size other) (m_offset other) (m_fd other) (m_mapping_mode other)
              (match target e with Windows => m_handle other | _ => m_handle m end)
              (m_addr other),
    w)).
Proof.
  unfold take_over, move_ctor. destruct (target e); reflexivity.
Qed.

Lemma moved_from_owns_nothing (other : MemoryMapping) :
  owns_nothing e (snd (move_ctor e other)) = true.
Proof.
  unfold owns_nothing, move_ctor.
  destruct (target e); cbn [snd];
    rewrite ?is_valid_set_handle, is_valid_make_invalid; reflexivity.
Qed.

Lemma move_assign_posix (other m : MemoryMapping) (w : world) :
  target e <> Windows ->
  move_assign e other (m, w) =
  take_over e other (snd (unmap e (m, w))).
Proof.
  intros Hp. unfold move_assign.
  assert (H : noexcept (try_ignore (unmap e) ;; take_over e other) (m, w) =
              take_over e other (snd (unmap e (m, w)))).
  { unfold noexcept, bind, try_ignore. rewrite unmap_posix by exact Hp.
    destruct (is_valid e m); [destruct (negb _)|]; simpl;
      rewrite take_over_eq; reflexivity. }
  destruct (target e); [exact H | exact H | congruence].
Qed.

Lemma move_assign_windows (other m : MemoryMapping) (w : world) :
  target e = Windows ->
  move_assign e other (m, w) =
  match unmap e (m, w) with
  | (Ok _, st) => take_over e other st
  | (_, st) => (Abort "std::terminate", st)
  end.
Proof.
  intros Hp. unfold move_assign. rewrite Hp.
  unfold noexcept, bind. rewrite unmap_windows by exact Hp.
  repeat match goal with
         | |- context [if ?b then _ else _] => destruct b; simpl
         end;
    rewrite ?take_over_eq; reflexivity.
Qed.

(** The calls of [unmap()] release what the object holds. *)
Lemma unmap_calls (m : MemoryMapping) (w : world) :
  exists calls, snd (snd (unmap e (m, w))) = w ++ calls /\
                forallb (releases m) calls = true.
Proof.
  destruct (target e) eqn:Hp.
  1,2: rewrite unmap_posix by congruence;
    destruct (is_valid e m); [destruct (negb _)|]; simpl;
    solve [ exists []; rewrite app_nil_r; auto
          | eexists; split; [reflexivity|]; simpl; rewrite !Z.eqb_refl; reflexivity ].
  rewrite unmap_windows by exact Hp.
  repeat match goal with
         | |- context [if ?b then _ else _] => destruct b; simpl
         end;
    solve [ exists []; rewrite app_nil_r; auto
          | eexists; split; [reflexivity|]; simpl; rewrite !Z.eqb_refl; reflexivity
          | eexists; split; [rewrite <- app_assoc; reflexivity|]; simpl;
            rewrite !Z.eqb_refl; reflexivity ].
Qed.

Lemma move_assign_world (other m : MemoryMapping) (w : world) :
  snd (snd (move_assign e other (m, w))) = snd (snd (unmap e (m, w))).
Proof.
  destruct (target e) eqn:Hp.
  1,2: rewrite move_assign_posix by congruence;
    destruct (unmap e (m, w)) as [r [m1 w1]]; cbn [snd]; rewrite take_over_eq;
    reflexivity.
  rewrite move_assign_windows by exact Hp.
  destruct (unmap e (m, w)) as [[[]|code what|why] [m1 w1]];
    rewrite ?take_over_eq; reflexivity.
Qed.

(** *** Failures of the system *)

Lemma unmap_propagates (m : MemoryMapping) (w : world) :
  exists calls,
    snd (snd (unmap e (m, w))) = w ++ calls /\
    (any_failed e w calls = true -> throws (fst (unmap e (m, w))) = true).
Proof.
  destruct (target e) eqn:Hp.
  1,2: rewrite unmap_posix by congruence; split_ifs; one_path.
  rewrite unmap_windows by exact Hp. split_ifs; one_path.
Qed.

Lemma resize_propagates (n : Z) (m : MemoryMapping) (w : world) :
  exists calls,
    snd (snd (resize e n (m, w))) = w ++ calls /\
    (any_failed e w calls = true -> throws (fst (resize e n (m, w))) = true).
Proof.
  run_code. destruct (target e) eqn:Hp; simpl; rewrite ?negb_involutive;
    split_ifs; one_path.
Qed.

Lemma ctor_propagates (sz : Z) (mode : mapping_mode) (d off : Z) (w : world) :
  exists calls,
    snd (ctor e sz mode d off w) = w ++ calls /\
    (any_failed e w calls = true ->
     throws (fst (ctor e sz mode d off w)) = true \/
     (d = -1 /\ mode = readonly /\ ndebug e = false)).
Proof.
  run_code. destruct (target e) eqn:Hp; simpl; rewrite ?negb_involutive;
    split_ifs;
    try solve [ one_path ].
  all: eexists; (split; [world_eq|]);
    intros _; right; destruct mode; try discriminate;
    repeat split; apply Z.eqb_eq; assumption.
Qed.

Lemma dtor_returns (m : MemoryMapping) (w : world) :
  fst (dtor e (m, w)) = Ok tt.
Proof.
  unfold dtor, noexcept, try_ignore.
  destruct (target e) eqn:Hp.
  1,2: rewrite unmap_posix by congruence; split_ifs; reflexivity.
  rewrite unmap_windows by exact Hp. split_ifs; reflexivity.
Qed.

Lemma move_assign_posix_returns (other m : MemoryMapping) (w : world) :
  target e <> Windows ->
  fst (move_assign e other (m, w)) = Ok (snd (move_ctor e other)).
Proof.
  intros Hp. rewrite move_assign_posix by exact Hp.
  destruct (unmap e (m, w)) as [r [m1 w1]]. cbn [snd].
  rewrite take_over_eq. reflexivity.
Qed.

(** *** Objects that operations return are in sync *)

(** A constructor that returns leaves a valid object. *)
Lemma ctor_returns_valid (sz : Z) (mode : mapping_mode) (d off : Z) (w : world)
    (m : MemoryMapping) (w' : world) :
  ctor e sz mode d off w = (Ok m, w') -> is_valid e m = true.
Proof.
  run_code.
  destruct (target e) eqn:Hp; simpl; split_ifs;
    intros H; inversion H; subst; clear H; simpl; by_test.
Qed.

(** A [resize()] that returns leaves a valid object, except that outside
    Linux and Windows, with [NDEBUG], it returns from an anonymous mapping
    without having done anything. *)
Lemma resize_returns_valid (n : Z) (m m' : MemoryMapping) (w w' : world) :
  resize e n (m, w) = (Ok tt, (m', w')) ->
  is_valid e m' = true \/
  (target e = OtherUnix /\ ndebug e = true /\ m_fd m = -1 /\ m' = m /\ w' = w).
Proof.
  run_code.
  destruct (target e) eqn:Hp; simpl; split_ifs;
    intros H; inversion H; subst; clear H; simpl;
    try (right; repeat split; try reflexivity; apply Z.eqb_eq; assumption);
    left; by_test.
Qed.

(** *** The size of a typed mapping *)

Lemma ctor_size (sz : Z) (mode : mapping_mode) (d off : Z) (w : world)
    (m : MemoryMapping) (w' : world) :
  ctor e sz mode d off w = (Ok m, w') -> size m = check_size e sz.
Proof.
  unfold size. run_code.
  destruct (target e) eqn:Hp; simpl; split_ifs;
    intros H; inversion H; reflexivity.
Qed.

(** With at least one element, and a byte size that fits [std::size_t],
    the byte size of a new typed mapping is a multiple of [sizeof(T)]. *)
Lemma typed_ctor_size (sizeof_T n : Z) (w : world) (m : MemoryMapping) (w' : world) :
  0 < sizeof_T -> 0 < n -> sizeof_T * n < 2 ^ 64 ->
  typed_ctor e sizeof_T n w = (Ok m, w') ->
  size m = sizeof_T * n /\ size m mod sizeof_T = 0 /\
  typed_size e sizeof_T (m, w') = (Ok n, (m, w')).
Proof.
  intros Hs Hn Hlt H. unfold typed_ctor in H. apply ctor_size in H.
  unfold check_size, wrap64 in H.
  rewrite Z.mod_small in H by nia.
  destruct (sizeof_T * n =? 0) eqn:Hz; [apply Z.eqb_eq in Hz; nia|].
  assert (Hmod : size m mod sizeof_T = 0).
  { rewrite H, Z.mul_comm. apply Z.mod_mul. lia. }
  split; [exact H|]. split; [exact Hmod|].
  unfold typed_size, assert. monad. rewrite Hmod. simpl.
  assert (Hdiv : size m / sizeof_T = n).
  { rewrite H, Z.mul_comm. apply Z.div_mul. lia. }
  rewrite Hdiv. destruct (ndebug e); reflexivity.
Qed.

(** *** Resizing anonymous mappings *)

(** Outside Linux and Windows, [resize()] on an anonymous mapping makes no
    call and changes nothing: the assertion fails or, with [NDEBUG], the
    function just returns. *)
Lemma resize_anonymous_other_unix (n : Z) (m : MemoryMapping) (w : world) :
  target e = OtherUnix -> m_fd m = -1 ->
  snd (resize e n (m, w)) = (m, w) /\
  throws (fst (resize e n (m, w))) = false.
Proof.
  intros Hp Hfd. unfold resize, assert. rewrite Hp. monad.
  destruct (ndebug e); simpl; [|destruct (0 <? n); simpl];
    rewrite ?Hfd; simpl; auto.
Qed.

(** The anonymous classes have no [resize] outside Linux. *)
Lemma anonymous_resize_deleted (sizeof_T : Z) :
  target e <> Linux ->
  AnonymousMemoryMapping_resize e = None /\
  AnonymousTypedMemoryMapping_resize e sizeof_T = None.
Proof.
  unfold AnonymousMemoryMapping_resize, AnonymousTypedMemoryMapping_resize.
  destruct (target e); [congruence | auto | auto].
Qed.

End WithEnv.

(** ** The claims about [MemoryMapping] *)

(** C4, as the code has it: a successful anonymous create in a writable
    mode gives a valid object whose [size()] is the requested size, or the
    page size when zero bytes were requested; the mapping call asks the
    system for exactly this length (no rounding up to [max(size,
    pagesize)]). *)
Theorem anonymous_create_size
    (e : Env) (sz : Z) (mode : mapping_mode) (w : world)
    (m : MemoryMapping) (w' : world) :
  is_readonly mode = false ->
  ctor e sz mode (-1) 0 w = (Ok m, w') ->
  operator_bool e m = true /\
  size m = (if sz =? 0 then pagesize e else sz) /\
  fd m = -1 /\
  exists pre c, w' = w ++ pre ++ [c] /\ mapped_length c = Some (size m).
Proof.
  intros Hm. unfold ctor, ctor_body, resize_fd, create_file_mapping,
    map_view_of_file, get_handle, assert, operator_bool, size, fd.
  change (-1 =? -1) with true. rewrite Hm. cbn [andb negb].
  destruct (target e) eqn:Hp; monad.
  1,2: destruct (ndebug e); simpl;
    match goal with
    | |- context [is_valid ?E ?x] => destruct (is_valid E x) eqn:Hv
    end; simpl; intros H; inversion H; subst; clear H;
    (split; [exact Hv|]); (split; [reflexivity|]); (split; [reflexivity|]);
    eexists [], _; split; reflexivity.
  match goal with
  | |- context [if ?b then _ else _] => destruct b
  end; simpl; [discriminate|].
  match goal with
  | |- context [is_valid ?E ?x] => destruct (is_valid E x) eqn:Hv
  end; simpl; intros H; inversion H; subst; clear H.
  split; [exact Hv|]. split; [reflexivity|]. split; [reflexivity|].
  eexists [_], _. split; [rewrite <- app_assoc|]; reflexivity.
Qed.

(** C4 fails as stated: on a machine with pages of 4096 bytes an anonymous
    create of one byte maps one byte and reports the size 1, and not
    [max(1, 4096)]. *)
Lemma one_byte_mapping_has_size_one :
  ctor (machine Linux false obliging) 1 write_private (-1) 0 [] =
  (Ok (mkMapping 1 0 (-1) write_private 0 139637976727552),
   [mmap 1 3 34 (-1) 0]) /\
  size (mkMapping 1 0 (-1) write_private 0 139637976727552) = 1 /\
  Z.max 1 (pagesize (machine Linux false obliging)) = 4096.
Proof. repeat split. Qed.

Lemma anonymous_create_size_witness :
  operator_bool (machine Linux false obliging)
    (mkMapping 4096 0 (-1) write_private 0 139637976727552) = true /\
  size (mkMapping 4096 0 (-1) write_private 0 139637976727552) =
  (if 0 =? 0 then pagesize (machine Linux false obliging) else 0) /\
  fd (mkMapping 4096 0 (-1) write_private 0 139637976727552) = -1 /\
  exists pre c,
    [mmap 4096 3 34 (-1) 0] = [] ++ pre ++ [c] /\
    mapped_length c =
    Some (size (mkMapping 4096 0 (-1) write_private 0 139637976727552)).
Proof.
  exact (anonymous_create_size (machine Linux false obliging)
           0 write_private []
           (mkMapping 4096 0 (-1) write_private 0 139637976727552)
           [mmap 4096 3 34 (-1) 0] eq_refl eq_refl).
Defined.

(** C5: move construction makes no call of the system at all; it leaves the
    source invalid and gives the new object the size, offset, descriptor,
    mode and address of the source.  Move assignment makes only the calls
    that release what the destination held before; whenever it returns, the
    source is invalid and the destination has the size, offset, descriptor,
    mode and address the source had; and it returns, except under Windows
    when the release of the destination fails. *)
Theorem move_transfers_mapping
    (e : Env) (other dest : MemoryMapping) (w : world) :
  (operator_bool e (snd (move_ctor e other)) = false /\
   same_mapping (fst (move_ctor e other)) other) /\
  (exists calls,
     snd (snd (move_assign e other (dest, w))) = w ++ calls /\
     forallb (releases dest) calls = true) /\
  (forall left,
     fst (move_assign e other (dest, w)) = Ok left ->
     operator_bool e left = false /\
     same_mapping (fst (snd (move_assign e other (dest, w)))) other) /\
  (target e <> Windows \/ fst (unmap e (dest, w)) = Ok tt ->
   exists left, fst (move_assign e other (dest, w)) = Ok left).
Proof.
  split; [|split; [|split]].
  - pose proof (moved_from_owns_nothing e other) as H.
    unfold owns_nothing in H. apply andb_true_iff in H. destruct H as [H _].
    apply negb_true_iff in H. split; [exact H|].
    unfold move_ctor, same_mapping. destruct (target e); simpl; auto.
  - rewrite move_assign_world. apply unmap_calls.
  - intros left. destruct (target e) eqn:Hp.
    1,2: rewrite move_assign_posix by congruence;
      destruct (unmap e (dest, w)) as [r [m1 w1]]; cbn [snd];
      rewrite take_over_eq; simpl;
      intros H; injection H as <-;
      (split; [|unfold same_mapping; simpl; auto]);
      unfold operator_bool, move_ctor; rewrite Hp; apply is_valid_make_invalid.
    rewrite move_assign_windows by exact Hp.
    destruct (unmap e (dest, w)) as [[[]|code what|why] [m1 w1]];
      rewrite ?take_over_eq; simpl; try discriminate.
    intros H; injection H as <-.
    split; [|unfold same_mapping; simpl; auto].
    unfold operator_bool, move_ctor. rewrite Hp. simpl.
    rewrite is_valid_set_handle. apply is_valid_make_invalid.
  - intros H. destruct (target e) eqn:Hp.
    1,2: rewrite move_assign_posix by congruence;
      destruct (unmap e (dest, w)) as [r [m1 w1]]; cbn [snd];
      rewrite take_over_eq; eexists; reflexivity.
    destruct H as [H|H]; [congruence|].
    rewrite move_assign_windows by exact Hp.
    destruct (unmap e (dest, w)) as [r [m1 w1]]. simpl in H. subst r.
    rewrite take_over_eq. eexists; reflexivity.
Qed.

(** C6, as the code has it: when [unmap()] returns on a valid object, the
    object reports invalid, and a second [unmap()] returns at once: it
    makes no call and changes nothing.  On an invalid object [unmap()] of
    the Unix implementation makes no call and changes nothing; that of the
    Windows implementation does so only if the mapping handle is null as
    well: on an invalid object with a live handle it calls [CloseHandle]
    on that handle and, if this succeeds, sets the handle to null. *)
Theorem unmap_is_idempotent
    (e : Env) (m m' : MemoryMapping) (w w' : world) :
  operator_bool e m = true ->
  unmap e (m, w) = (Ok tt, (m', w')) ->
  operator_bool e m' = false /\
  unmap e (m', w') = (Ok tt, (m', w')) /\
  (forall m0 w0,
     operator_bool e m0 = false ->
     (target e <> Windows \/ m_handle m0 = nullptr ->
      unmap e (m0, w0) = (Ok tt, (m0, w0))) /\
     (target e = Windows -> m_handle m0 <> nullptr ->
      snd (snd (unmap e (m0, w0))) = w0 ++ [CloseHandle (m_handle m0)] /\
      (fst (unmap e (m0, w0)) = Ok tt ->
       fst (snd (unmap e (m0, w0))) = set_handle nullptr m0))).
Proof.
  intros _ H. pose proof (unmap_leaves_nothing _ _ _ _ _ H) as Hn.
  split; [|split].
  - unfold owns_nothing in Hn. apply andb_true_iff in Hn.
    destruct Hn as [Hn _]. apply negb_true_iff in Hn. exact Hn.
  - apply unmap_owns_nothing, Hn.
  - intros m0 w0 Hv. unfold operator_bool in Hv. split.
    + intros Hh. apply unmap_owns_nothing.
      unfold owns_nothing. rewrite Hv. simpl.
      destruct (target e); [reflexivity | reflexivity |].
      destruct Hh as [Hh|Hh]; [congruence|]. rewrite Hh. reflexivity.
    + intros Hp Hh. rewrite unmap_windows by exact Hp. rewrite Hv.
      apply Z.eqb_neq in Hh. rewrite Hh. simpl.
      destruct (reply e w0 (CloseHandle (m_handle m0)) =? 0); simpl;
        (split; [reflexivity|]); [discriminate | reflexivity].
Qed.

(** An invalid object on which [unmap()] is no no-op.  Under Windows a
    mapping of a file is constructed and then resized; [MapViewOfFile]
    fails, so [resize()] throws and leaves an object that reports invalid
    but holds the handle of the new file mapping; [unmap()] on it calls
    [CloseHandle] and sets the handle to null. *)
Lemma unmap_closes_handle_of_invalid_mapping :
  ctor (machine Windows false remap_refused) 4096 write_shared 3 0 [] =
  (Ok (mkMapping 4096 0 3 write_shared 9 139637976727552),
   [file_size 3; resize_file 3 4096; setmode 3 32768; get_osfhandle 3;
    CreateFileMapping 7 4 0 4096; MapViewOfFile 9 2 0 0 4096]) /\
  resize (machine Windows false remap_refused) 8192
    (mkMapping 4096 0 3 write_shared 9 139637976727552,
     [file_size 3; resize_file 3 4096; setmode 3 32768; get_osfhandle 3;
      CreateFileMapping 7 4 0 4096; MapViewOfFile 9 2 0 0 4096]) =
  (Throw 22 "MapViewOfFile failed",
   (mkMapping 8192 0 3 write_shared 9 nullptr,
    [file_size 3; resize_file 3 4096; setmode 3 32768; get_osfhandle 3;
     CreateFileMapping 7 4 0 4096; MapViewOfFile 9 2 0 0 4096;
     UnmapViewOfFile 139637976727552; CloseHandle 9;
     file_size 3; resize_file 3 8192; setmode 3 32768; get_osfhandle 3;
     CreateFileMapping 7 4 0 8192; MapViewOfFile 9 2 0 0 8192])) /\
  operator_bool (machine Windows false remap_refused)
    (mkMapping 8192 0 3 write_shared 9 nullptr) = false /\
  unmap (machine Windows false remap_refused)
    (mkMapping 8192 0 3 write_shared 9 nullptr,
     [file_size 3; resize_file 3 4096; setmode 3 32768; get_osfhandle 3;
      CreateFileMapping 7 4 0 4096; MapViewOfFile 9 2 0 0 4096;
      UnmapViewOfFile 139637976727552; CloseHandle 9;
      file_size 3; resize_file 3 8192; setmode 3 32768; get_osfhandle 3;
      CreateFileMapping 7 4 0 8192; MapViewOfFile 9 2 0 0 8192]) =
  (Ok tt,
   (mkMapping 8192 0 3 write_shared nullptr nullptr,
    [file_size 3; resize_file 3 4096; setmode 3 32768; get_osfhandle 3;
     CreateFileMapping 7 4 0 4096; MapViewOfFile 9 2 0 0 4096;
     UnmapViewOfFile 139637976727552; CloseHandle 9;
     file_size 3; resize_file 3 8192; setmode 3 32768; get_osfhandle 3;
     CreateFileMapping 7 4 0 8192; MapViewOfFile 9 2 0 0 8192;
     CloseHandle 9])).
Proof.
  repeat split; vm_compute; reflexivity.
Qed.

Lemma unmap_is_idempotent_witness :
  operator_bool (machine Windows false obliging)
    (mkMapping 1024 0 (-1) write_private nullptr nullptr) = false /\
  unmap (machine Windows false obliging)
    (mkMapping 1024 0 (-1) write_private nullptr nullptr,
     [UnmapViewOfFile 139637976727552; CloseHandle 9]) =
  (Ok tt, (mkMapping 1024 0 (-1) write_private nullptr nullptr,
           [UnmapViewOfFile 139637976727552; CloseHandle 9])) /\
  (forall m0 w0,
     operator_bool (machine Windows false obliging) m0 = false ->
     (target (machine Windows false obliging) <> Windows \/
      m_handle m0 = nullptr ->
      unmap (machine Windows false obliging) (m0, w0) = (Ok tt, (m0, w0))) /\
     (target (machine Windows false obliging) = Windows ->
      m_handle m0 <> nullptr ->
      snd (snd (unmap (machine Windows false obliging) (m0, w0))) =
      w0 ++ [CloseHandle (m_handle m0)] /\
      (fst (unmap (machine Windows false obliging) (m0, w0)) = Ok tt ->
       fst (snd (unmap (machine Windows false obliging) (m0, w0))) =
       set_handle nullptr m0))).
Proof.
  exact (unmap_is_idempotent (machine Windows false obliging)
           (mkMapping 1024 0 (-1) write_private 9 139637976727552)
           (mkMapping 1024 0 (-1) write_private nullptr nullptr)
           [] [UnmapViewOfFile 139637976727552; CloseHandle 9]
           eq_refl eq_refl).
Defined.

(** C7, as the code has it: the constructor, [unmap()] and [resize()] throw
    [std::system_error] to their caller as soon as one of their calls of the
    system fails (the constructor unless its assertion stops the process
    first); the destructor always returns; and so does the move assignment
    of the Unix implementation, which discards the failure of the unmap it
    makes just as the destructor does.  (The move assignment of the Windows
    implementation does not catch it: the exception would leave a
    [noexcept] function, which ends the process.) *)
Theorem failures_propagate_except_dtor_and_move_assign (e : Env) :
  (forall sz mode d off w,
     exists calls,
       snd (ctor e sz mode d off w) = w ++ calls /\
       (any_failed e w calls = true ->
        throws (fst (ctor e sz mode d off w)) = true \/
        (d = -1 /\ mode = readonly /\ ndebug e = false))) /\
  (forall m w,
     exists calls,
       snd (snd (unmap e (m, w))) = w ++ calls /\
       (any_failed e w calls = true -> throws (fst (unmap e (m, w))) = true)) /\
  (forall n m w,
     exists calls,
       snd (snd (resize e n (m, w))) = w ++ calls /\
       (any_failed e w calls = true -> throws (fst (resize e n (m, w))) = true)) /\
  (forall m w, fst (dtor e (m, w)) = Ok tt) /\
  (target e <> Windows ->
   forall other m w,
     fst (move_assign e other (m, w)) = Ok (snd (move_ctor e other))) /\
  (target e = Windows ->
   forall other m w,
     throws (fst (unmap e (m, w))) = true ->
     fst (move_assign e other (m, w)) = Abort "std::terminate").
Proof.
  split; [|split; [|split; [|split; [|split]]]].
  - intros. apply ctor_propagates.
  - intros. apply unmap_propagates.
  - intros. apply resize_propagates.
  - intros. apply dtor_returns.
  - intros Hp other m w. apply move_assign_posix_returns, Hp.
  - intros Hp other m w Ht. rewrite move_assign_windows by exact Hp.
    destruct (unmap e (m, w)) as [[u|code what|why] st];
      [discriminate Ht | reflexivity | discriminate Ht].
Qed.

(** C7 fails as stated: the system refuses to unmap what the destination
    holds; the move assignment of the Unix implementation catches the
    exception of [unmap()] and returns as if nothing had happened. *)
Lemma move_assignment_discards_unmap_failure :
  call_failed (machine Linux false unmap_refused) []
    (munmap 139637976727552 1024) = true /\
  throws (fst (unmap (machine Linux false unmap_refused)
                 (mkMapping 1024 0 (-1) write_private 0 139637976727552, []))) =
  true /\
  move_assign (machine Linux false unmap_refused)
    (mkMapping 2048 0 (-1) write_private 0 139637976731648)
    (mkMapping 1024 0 (-1) write_private 0 139637976727552, []) =
  (Ok (mkMapping 2048 0 (-1) write_private 0 MAP_FAILED),
   (mkMapping 2048 0 (-1) write_private 0 139637976731648,
    [munmap 139637976727552 1024])).
Proof. repeat split. Qed.

(** C8 at the failing input: a typed mapping of no elements of a type of
    three bytes, on a machine with pages of 4096 bytes.  The constructor
    maps a page; 4096 is no multiple of 3; with [NDEBUG], [size()] returns
    1365, and 1365 elements are 4095 bytes; without, its assertion fails. *)
Lemma typed_mapping_of_no_elements :
  typed_ctor (machine Linux true obliging) 3 0 [] =
  (Ok (mkMapping 4096 0 (-1) write_private 0 139637976727552),
   [mmap 4096 3 34 (-1) 0]) /\
  size (mkMapping 4096 0 (-1) write_private 0 139637976727552) mod 3 = 1 /\
  typed_size (machine Linux true obliging) 3
    (mkMapping 4096 0 (-1) write_private 0 139637976727552,
     [mmap 4096 3 34 (-1) 0]) =
  (Ok 1365,
   (mkMapping 4096 0 (-1) write_private 0 139637976727552,
    [mmap 4096 3 34 (-1) 0])) /\
  1365 * 3 = 4095 /\
  typed_size (machine Linux false obliging) 3
    (mkMapping 4096 0 (-1) write_private 0 139637976727552,
     [mmap 4096 3 34 (-1) 0]) =
  (Abort "m_mapping.size() % sizeof(T) == 0",
   (mkMapping 4096 0 (-1) write_private 0 139637976727552,
    [mmap 4096 3 34 (-1) 0])).
Proof. repeat split. Qed.

(** C9 at the failing input: under Windows, [resize()] on an anonymous
    mapping unmaps the view, closes the mapping object, and creates and maps
    a new one; a typed mapping created without a file is resized in the
    same way. *)
Lemma windows_resize_remaps_anonymous_mapping :
  ctor (machine Windows false obliging) 4096 write_private (-1) 0 [] =
  (Ok (mkMapping 4096 0 (-1) write_private 9 139637976727552),
   [CreateFileMapping INVALID_HANDLE_VALUE 8 0 4096;
    MapViewOfFile 9 1 0 0 4096]) /\
  resize (machine Windows false obliging) 8192
    (mkMapping 4096 0 (-1) write_private 9 139637976727552,
     [CreateFileMapping INVALID_HANDLE_VALUE 8 0 4096;
      MapViewOfFile 9 1 0 0 4096]) =
  (Ok tt,
   (mkMapping 8192 0 (-1) write_private 9 139637976727552,
    [CreateFileMapping INVALID_HANDLE_VALUE 8 0 4096;
     MapViewOfFile 9 1 0 0 4096;
     UnmapViewOfFile 139637976727552;
     CloseHandle 9;
     CreateFileMapping INVALID_HANDLE_VALUE 8 0 8192;
     MapViewOfFile 9 1 0 0 8192])) /\
  snd (snd (typed_resize (machine Windows false obliging) 4 2048
              (mkMapping 4096 0 (-1) write_private 9 139637976727552, []))) =
  [UnmapViewOfFile 139637976727552;
   CloseHandle 9;
   CreateFileMapping INVALID_HANDLE_VALUE 8 0 8192;
   MapViewOfFile 9 1 0 0 8192].
Proof. repeat split. Qed.

(** C10: an object that has been moved from, or unmapped, or that reports
    invalid for any other reason, reports invalid, and [get_addr()] returns
    the address that marks invalid objects.  In the Unix implementation
    this is [MAP_FAILED], all 64 bits set, and not the null pointer: a
    comparison of the pointer with null does not tell that the object is
    invalid. *)
Theorem invalid_mapping_address_is_the_marker
    (e : Env) (m other unmapped : MemoryMapping) (w w' : world) :
  m = snd (move_ctor e other) \/
  unmap e (unmapped, w) = (Ok tt, (m, w')) \/
  operator_bool e m = false ->
  operator_bool e m = false /\
  get_addr m = invalid_address e /\
  (target e <> Windows ->
   get_addr m = 18446744073709551615 /\ (get_addr m =? nullptr) = false).
Proof.
  intros H.
  assert (Hv : is_valid e m = false).
  { destruct H as [H|[H|H]].
    - subst m. pose proof (moved_from_owns_nothing e other) as Hn.
      unfold owns_nothing in Hn. apply andb_true_iff in Hn.
      destruct Hn as [Hn _]. apply negb_true_iff in Hn. exact Hn.
    - apply unmap_leaves_nothing in H.
      unfold owns_nothing in H. apply andb_true_iff in H.
      destruct H as [H _]. apply negb_true_iff in H. exact H.
    - exact H. }
  split; [exact Hv|]. apply invalid_addr in Hv.
  unfold get_addr. split; [exact Hv|].
  intros Hp. rewrite Hv. unfold invalid_address.
  destruct (target e); [split; reflexivity | split; reflexivity | congruence].
Qed.

Lemma invalid_mapping_address_is_the_marker_witness :
  operator_bool (machine Linux false obliging)
    (mkMapping 1024 0 (-1) write_private 0 MAP_FAILED) = false /\
  get_addr (mkMapping 1024 0 (-1) write_private 0 MAP_FAILED) =
  invalid_address (machine Linux false obliging) /\
  (target (machine Linux false obliging) <> Windows ->
   get_addr (mkMapping 1024 0 (-1) write_private 0 MAP_FAILED) =
   18446744073709551615 /\
   (get_addr (mkMapping 1024 0 (-1) write_private 0 MAP_FAILED) =? nullptr) =
   false).
Proof.
  exact (invalid_mapping_address_is_the_marker (machine Linux false obliging)
           (mkMapping 1024 0 (-1) write_private 0 MAP_FAILED)
           (mkMapping 1024 0 (-1) write_private 0 139637976727552)
           (mkMapping 1024 0 (-1) write_private 0 139637976727552)
           [] [munmap 139637976727552 1024]
           (or_intror (or_introl eq_refl))).
Defined.

End MemoryMappingProps.

(* ================================================================== *)
(** * Part V: further properties of the read pipeline *)
(* ================================================================== *)

Module ReadThreadInvariants.

Import ReadThread ReadThreadProps.

(** *** The queue stays short *)

Lemma queue_inv_act (a : actor) (s : state) : queue_inv s -> queue_inv (act a s).
Proof.
  break_state s. unfold queue_inv; simpl.
  destruct a; unfold act.
  - unfold producer_step, read, close; simpl.
    destruct l; simpl; intros H;
      try (destruct sc as [|[data|] rest]; simpl);
      repeat match goal with
             | |- context [if ?b then _ else _] => destruct b eqn:?; simpl
             end;
      rewrite ?length_app; simpl;
      try match goal with
          | Hq : (10 <? _) = false |- _ => apply Nat.ltb_ge in Hq
          end;
      try match goal with
          | H' : _ \/ _ |- _ => destruct H' as [H'|[H1 H2]]
          end;
      try discriminate; auto; try lia;
      try (left; lia);
      try (right; split; [destruct d; simpl in *; congruence | lia]).
  - unfold consumer_pop, saw_sentinel; simpl.
    destruct (existsb empty po); simpl; [auto|].
    destruct q as [|data rest]; simpl; [auto|].
    destruct l; simpl; lia.
  - simpl. destruct l; auto. intros [H|[H1 H2]]; [left | right; split]; auto.
Qed.

Lemma queue_inv_run (sc : list read_result) (cf : bool) (sched : list actor) :
  queue_inv (pipeline sc cf sched).
Proof.
  unfold pipeline. apply run_invariant.
  - intros a s. apply queue_inv_act.
  - simpl. unfold queue_inv. simpl. left. lia.
Qed.

(** X1: in every state of the pipeline, whatever the Decompressor does and
    however the threads are interleaved, the queue holds at most 11 chunks;
    at most 10 when the producer calls [read()]; and at most 12 after the
    handler has pushed its sentinel. *)
Theorem queue_stays_short (sc : list read_result) (cf : bool) (sched : list actor) :
  length (m_queue (pipeline sc cf sched)) <=
  match at_pc (pipeline sc cf sched) with
  | AtRead | AtBranch _ => 10
  | Rethrown => 12
  | _ => 11
  end.
Proof.
  pose proof (queue_inv_run sc cf sched) as H. unfold queue_inv in H.
  destruct (at_pc (pipeline sc cf sched)); try lia.
Qed.

Ltac split_cases :=
  repeat match goal with
         | |- context [if ?b then _ else _] => destruct b eqn:?; simpl
         end.

(** *** How [operator()] ends *)

Lemma sentinel_last_act (a : actor) (s : state) :
  sentinel_last s -> sentinel_last (act a s).
Proof.
  unfold sentinel_last. destruct a; unfold act.
  - break_state s. unfold producer_step, read, close; simpl.
    destruct l; simpl; intros H;
      try (destruct sc as [|[data'|] rest']; simpl);
      split_cases; try discriminate; try exact H.
    all: intros _; eexists; reflexivity.
  - unfold consumer_pop. intros H. destruct (saw_sentinel s); [exact H|].
    destruct (m_queue s); exact H.
  - intros H. exact H.
Qed.

(** X2: [operator()] returns [true] only if neither [read()] nor [close()]
    threw, and then it has called [close()]; it ends with an exception
    exactly when one of them threw, and then the last chunk it pushed is the
    sentinel of its handler, also when [close()] failed after a
    cancellation. *)
Theorem ends_with_sentinel_or_returns
    (sc : list read_result) (cf : bool) (sched : list actor) :
  (at_pc (pipeline sc cf sched) = Returned ->
   cf = false /\ closes (pipeline sc cf sched) = 1 /\
   exited (pipeline sc cf sched) <> Some ReadFailed) /\
  (at_pc (pipeline sc cf sched) = Rethrown ->
   (exited (pipeline sc cf sched) = Some ReadFailed \/ cf = true) /\
   exists before, pushed (pipeline sc cf sched) = before ++ [EmptyString]).
Proof.
  pose proof (ctl_inv_run sc cf sched) as Hc.
  pose proof (close_throws_run sc cf sched) as Hcf.
  assert (Hlast : sentinel_last (pipeline sc cf sched)).
  { unfold pipeline. apply run_invariant.
    - apply sentinel_last_act.
    - unfold sentinel_last. discriminate. }
  unfold sentinel_last in Hlast.
  revert Hc Hcf Hlast. generalize (pipeline sc cf sched). intros s Hc Hcf Hlast.
  unfold ctl_inv, left_normally in Hc. split; intros Hl; rewrite Hl in Hc.
  - destruct Hc as (Ht & Hn & [[He _]|[He _]]); rewrite He;
      repeat split; congruence.
  - split; [|exact (Hlast Hl)].
    destruct Hc as [(He & _)|(Ht & _)]; [left; exact He | right; congruence].
Qed.

(** *** After the flag is set *)

Lemma done_stays (a : actor) (s : state) : m_done s = true -> m_done (act a s) = true.
Proof.
  break_state s. intros H. subst d.
  destruct a; unfold act, producer_step, read, close, consumer_pop, saw_sentinel;
    simpl.
  - destruct l; simpl;
      try (destruct sc as [|[data'|] rest']; simpl);
      split_cases; reflexivity.
  - split_cases; try reflexivity. destruct q; reflexivity.
  - reflexivity.
Qed.

(** With the flag set, a step of the producer brings it nearer to its end;
    the other threads do not hold it up. *)
Lemma done_step (a : actor) (s : state) :
  m_done s = true ->
  rank_done (at_pc (act a s)) + (if is_producer a then 1 else 0) <=
  rank_done (at_pc s) \/
  (rank_done (at_pc s) = 0 /\ rank_done (at_pc (act a s)) = 0).
Proof.
  break_state s. intros H. subst d.
  destruct a; unfold act, producer_step, read, close, consumer_pop, saw_sentinel;
    simpl.
  - destruct l; simpl;
      try (destruct sc as [|[data'|] rest']; simpl);
      split_cases; lia.
  - split_cases; try lia. destruct q; simpl; lia.
  - lia.
Qed.

(** With the flag set, the producer calls [read()] only if it is about to
    when the flag is set. *)
Lemma done_reads (a : actor) (s : state) :
  m_done s = true ->
  length (script s) + reads_left (act a s) <=
  length (script (act a s)) + reads_left s.
Proof.
  break_state s. intros H. subst d.
  destruct a;
    unfold act, producer_step, read, close, consumer_pop, saw_sentinel,
      reads_left; simpl.
  - destruct l; simpl;
      try (destruct sc as [|[data'|] rest']; simpl);
      split_cases; lia.
  - split_cases; try lia. destruct q; simpl; lia.
  - lia.
Qed.

Lemma done_run (sched : list actor) :
  forall s, m_done s = true ->
  rank_done (at_pc (run sched s)) + producer_steps sched <= rank_done (at_pc s) \/
  rank_done (at_pc (run sched s)) = 0.
Proof.
  induction sched as [|a sched IH]; intros s H.
  - left. unfold producer_steps. simpl. lia.
  - rewrite run_cons.
    destruct (IH (act a s) (done_stays a s H)) as [IH'|IH']; [|right; exact IH'].
    destruct (done_step a s H) as [Hs|[Hs1 Hs2]].
    + left. unfold producer_steps in *. simpl.
      destruct (is_producer a); simpl; lia.
    + right. lia.
Qed.

Lemma done_run_reads (sched : list actor) :
  forall s, m_done s = true ->
  length (script s) + reads_left (run sched s) <=
  length (script (run sched s)) + reads_left s.
Proof.
  induction sched as [|a sched IH]; intros s H.
  - simpl. lia.
  - rewrite run_cons.
    pose proof (IH (act a s) (done_stays a s H)) as IH'.
    pose proof (done_reads a s H) as H1. lia.
Qed.

Lemma rank_done_zero (s : state) : rank_done (at_pc s) = 0 -> terminated s = true.
Proof. unfold terminated. destruct (at_pc s); simpl; congruence. Qed.

(** X3: once the cancellation flag is set, the producer ends within eight
    steps of its own, however the other threads are interleaved, and it
    calls [read()] at most once more: the input is not drained. *)
Theorem cancelled_producer_ends_soon
    (sc : list read_result) (cf : bool) (before sched : list actor) :
  m_done (pipeline sc cf before) = true ->
  8 <= producer_steps sched ->
  terminated (pipeline sc cf (before ++ sched)) = true /\
  length (script (pipeline sc cf before)) <=
  length (script (pipeline sc cf (before ++ sched))) + 1.
Proof.
  unfold pipeline. rewrite run_app.
  generalize (run before (init sc cf)). intros s Hd Hk. split.
  - apply rank_done_zero.
    destruct (done_run sched s Hd) as [H|H]; [|exact H].
    assert (rank_done (at_pc s) <= 8) by (destruct (at_pc s); simpl; lia).
    lia.
  - pose proof (done_run_reads sched s Hd) as H.
    assert (reads_left s <= 1) by (unfold reads_left; destruct (at_pc s); lia).
    lia.
Qed.

Lemma cancelled_producer_ends_soon_witness :
  terminated (pipeline (stream ["a"%string; "b"%string; "c"%string]) false
                ([Producer; Producer; Canceller] ++
                 [Producer; Producer; Producer; Producer;
                  Producer; Producer; Producer; Producer])) = true /\
  length (script (pipeline (stream ["a"%string; "b"%string; "c"%string]) false
                    [Producer; Producer; Canceller])) <=
  length (script (pipeline (stream ["a"%string; "b"%string; "c"%string]) false
                    ([Producer; Producer; Canceller] ++
                     [Producer; Producer; Producer; Producer;
                      Producer; Producer; Producer; Producer]))) + 1.
Proof.
  apply (cancelled_producer_ends_soon
           (stream ["a"%string; "b"%string; "c"%string]) false
           [Producer; Producer; Canceller]
           [Producer; Producer; Producer; Producer;
            Producer; Producer; Producer; Producer]).
  - reflexivity.
  - unfold producer_steps. simpl. lia.
Defined.

(** *** A Decompressor that fails *)

Lemma nonempty_app (a b : list string) :
  nonempty (a ++ b) -> nonempty a /\ nonempty b.
Proof.
  unfold nonempty. rewrite forallb_app. intros H.
  apply andb_true_iff in H. exact H.
Qed.

Lemma fail_inv_init (chunks : list string) (rest : list read_result) (cf : bool) :
  fail_inv chunks rest (init (failing chunks rest) cf).
Proof.
  split; [reflexivity|]. split; [reflexivity|]. simpl.
  exists chunks. auto.
Qed.

Lemma fail_inv_producer (chunks : list string) (rest : list read_result)
    (s : state) :
  nonempty chunks -> fail_inv chunks rest s -> fail_inv chunks rest (act Producer s).
Proof.
  intros Hn. break_state s.
  unfold act, producer_step, read, close, fail_inv, failing; simpl.
  intros (Hd & Hc & H). subst d cl. destruct l; simpl.
  - auto.
  - destruct H as (todo & Ha & Hs). subst sc.
    destruct todo as [|data todo]; simpl.
    + repeat split. rewrite Ha, app_nil_r. reflexivity.
    + repeat split. exists todo. auto.
  - destruct H as (todo & Ha & Hs).
    assert (He : empty data = false).
    { rewrite Ha in Hn. apply nonempty_app in Hn. destruct Hn as [_ Hn].
      unfold nonempty in Hn. simpl in Hn. apply andb_true_iff in Hn.
      destruct Hn as [Hn _]. apply negb_true_iff in Hn. exact Hn. }
    rewrite He. simpl. repeat split. exists todo.
    rewrite <- app_assoc. simpl. auto.
  - destruct (10 <? length q); simpl; auto.
  - simpl. auto.
  - destruct H.
  - repeat split. rewrite H. reflexivity.
  - destruct H.
  - auto.
Qed.

Lemma fail_inv_consumer (chunks : list string) (rest : list read_result)
    (s : state) :
  fail_inv chunks rest s -> fail_inv chunks rest (act Consumer s).
Proof.
  unfold act, consumer_pop.
  destruct (saw_sentinel s); [auto|].
  destruct (m_queue s); auto.
Qed.

Lemma fail_inv_run (chunks : list string) (rest : list read_result) (cf : bool)
    (sched : list actor) :
  nonempty chunks -> uncancelled sched ->
  fail_inv chunks rest (pipeline (failing chunks rest) cf sched).
Proof.
  intros Hn Hu. unfold pipeline.
  apply run_invariant_uncancelled; [| |exact Hu|apply fail_inv_init].
  - intros s. apply fail_inv_producer, Hn.
  - intros s. apply fail_inv_consumer.
Qed.

(** What has been pushed is a prefix of the chunks and the sentinel. *)
Lemma fail_inv_pushed (chunks : list string) (rest : list read_result) (s : state) :
  fail_inv chunks rest s ->
  exists r, chunks ++ [EmptyString] = pushed s ++ r.
Proof.
  intros (_ & _ & H). destruct (at_pc s).
  1,2,4,5: destruct H as (todo & Ha & _); exists (todo ++ [EmptyString]);
    rewrite Ha, <- app_assoc; reflexivity.
  - destruct H as (todo & Ha & _). exists (data :: todo ++ [EmptyString]).
    rewrite Ha, <- app_assoc. reflexivity.
  - destruct H.
  - exists [EmptyString]. rewrite H. reflexivity.
  - destruct H.
  - exists []. rewrite H, app_nil_r. reflexivity.
Qed.

(** X4: the Decompressor delivers the non-empty [chunks] and then throws,
    and nobody cancels.  Then the consumer pops a prefix of [chunks]
    followed by the sentinel and nothing else; [close()] is not called and
    [operator()] does not return; and the threads can always go on to the
    end, where [operator()] has rethrown and the consumer has popped
    exactly [chunks] and the sentinel. *)
Theorem read_failure_releases_consumer
    (chunks : list string) (rest : list read_result) (cf : bool)
    (sched : list actor) :
  nonempty chunks -> uncancelled sched ->
  (exists r,
     chunks ++ [EmptyString] =
     popped (pipeline (failing chunks rest) cf sched) ++ r) /\
  closes (pipeline (failing chunks rest) cf sched) = 0 /\
  (exists more,
     uncancelled more /\
     quiescent (pipeline (failing chunks rest) cf (sched ++ more)) /\
     at_pc (pipeline (failing chunks rest) cf (sched ++ more)) = Rethrown /\
     popped (pipeline (failing chunks rest) cf (sched ++ more)) =
     chunks ++ [EmptyString]).
Proof.
  intros Hn Hu.
  pose proof (fail_inv_run chunks rest cf sched Hn Hu) as Hi.
  pose proof (fifo_inv_run (failing chunks rest) cf sched) as [Hq _].
  split; [|split].
  - destruct (fail_inv_pushed _ _ _ Hi) as [r Hr].
    exists (m_queue (pipeline (failing chunks rest) cf sched) ++ r).
    rewrite app_assoc, <- Hq. exact Hr.
  - destruct Hi as (_ & Hc & _). exact Hc.
  - destruct (runs_to_end (failing chunks rest) cf sched) as (more & Hm & Hend).
    exists more. split; [exact Hm|]. split; [exact Hend|].
    pose proof (fail_inv_run chunks rest cf (sched ++ more) Hn
                  (uncancelled_app _ _ Hu Hm)) as Hi'.
    pose proof (fifo_inv_run (failing chunks rest) cf (sched ++ more)) as [Hq' _].
    revert Hend Hi' Hq'.
    generalize (pipeline (failing chunks rest) cf (sched ++ more)).
    intros s [Ht Hpop] (_ & _ & Hi') Hq'.
    unfold terminated in Ht.
    destruct (at_pc s); try discriminate Ht; [destruct Hi'|].
    split; [reflexivity|].
    unfold consumer_pop in Hpop.
    destruct (saw_sentinel s) eqn:Hs.
    + rewrite Hi' in Hq'.
      rewrite (prefix_with_sentinel_is_all chunks (popped s) (m_queue s) Hn Hq' Hs)
        in Hq'.
      rewrite app_nil_r in Hq'. symmetry. exact Hq'.
    + destruct (m_queue s); [|discriminate Hpop].
      rewrite app_nil_r in Hq'. congruence.
Qed.

Lemma read_failure_releases_consumer_witness :
  (exists r,
     ["a"%string] ++ [EmptyString] =
     popped (pipeline (failing ["a"%string] []) false
               [Producer; Producer; Producer; Consumer]) ++ r) /\
  closes (pipeline (failing ["a"%string] []) false
            [Producer; Producer; Producer; Consumer]) = 0 /\
  (exists more,
     uncancelled more /\
     quiescent (pipeline (failing ["a"%string] []) false
                  ([Producer; Producer; Producer; Consumer] ++ more)) /\
     at_pc (pipeline (failing ["a"%string] []) false
              ([Producer; Producer; Producer; Consumer] ++ more)) = Rethrown /\
     popped (pipeline (failing ["a"%string] []) false
               ([Producer; Producer; Producer; Consumer] ++ more)) =
     ["a"%string] ++ [EmptyString]).
Proof.
  exact (read_failure_releases_consumer ["a"%string] [] false
           [Producer; Producer; Producer; Consumer] eq_refl eq_refl).
Defined.

(** *** Order, whether cancelled or not *)

Lemma skipn_cons_next {A : Type} (l : list A) :
  forall j c cs, skipn j l = c :: cs ->
  firstn j l ++ [c] = firstn (S j) l /\ skipn (S j) l = cs.
Proof.
  induction l as [|x l IH]; intros j c cs H.
  - destruct j; discriminate H.
  - destruct j as [|j].
    + simpl in H. injection H as -> ->. split; [reflexivity|].
      destruct cs; reflexivity.
    + simpl in H. destruct (IH j c cs H) as [H1 H2].
      split; [|exact H2]. simpl. rewrite H1. reflexivity.
Qed.

Lemma order_inv_init (chunks : list string) (cf : bool) :
  order_inv chunks (init (stream chunks) cf).
Proof. exists 0. split; reflexivity. Qed.

Lemma order_inv_act (chunks : list string) (a : actor) (s : state) :
  order_inv chunks s -> order_inv chunks (act a s).
Proof.
  destruct a; unfold act.
  - break_state s. unfold producer_step, read, close, order_inv, stream; simpl.
    intros [j H]. destruct l; simpl.
    + destruct H as [Hp Hs]. destruct d; simpl; [|exists j; auto].
      exists j, []. rewrite app_nil_r. split; [exact Hp | reflexivity].
    + destruct H as [Hp Hs]. subst sc.
      destruct (skipn j chunks) as [|c cs] eqn:Hk; simpl; exists j;
        rewrite Hk; auto.
    + destruct H as [Hp Hs].
      destruct (skipn j chunks) as [|c cs] eqn:Hk; simpl in Hs;
        injection Hs as -> ->.
      * simpl. exists j, [EmptyString]. subst pu. split; reflexivity.
      * destruct (skipn_cons_next chunks j c cs Hk) as [H1 H2].
        destruct (empty c) eqn:He; simpl.
        -- exists j, [c]. subst pu. simpl. rewrite He. split; reflexivity.
        -- exists (S j). subst pu. rewrite H1, H2. split; reflexivity.
    + destruct (10 <? length q); simpl; exists j; auto.
    + destruct d; simpl; exists j; auto.
    + destruct cf; simpl; exists j; auto.
    + destruct H as (tail & Hp & Ht). exists j, (tail ++ [EmptyString]).
      subst pu. rewrite <- app_assoc, forallb_app, Ht. split; reflexivity.
    + exists j; auto.
    + exists j; auto.
  - unfold consumer_pop. destruct (saw_sentinel s); [auto|].
    destruct (m_queue s); auto.
  - auto.
Qed.

Lemma order_inv_run (chunks : list string) (cf : bool) (sched : list actor) :
  order_inv chunks (pipeline (stream chunks) cf sched).
Proof.
  unfold pipeline. apply run_invariant.
  - intros a s. apply order_inv_act.
  - apply order_inv_init.
Qed.

Lemma nonempty_firstn (j : nat) (chunks : list string) :
  nonempty chunks -> nonempty (firstn j chunks).
Proof.
  unfold nonempty. revert j.
  induction chunks as [|c cs IH]; intros j H; destruct j; simpl; auto.
  simpl in H. apply andb_true_iff in H. destruct H as [Hc H].
  rewrite Hc. simpl. apply IH, H.
Qed.

(** A prefix of chunks followed by sentinels, read up to the first
    sentinel at most: chunks in their order, then perhaps one sentinel. *)
Lemma popped_shape (X tail po q : list string) :
  nonempty X -> forallb empty tail = true ->
  po ++ q = X ++ tail ->
  existsb empty (removelast po) = false ->
  exists k, po = firstn k X \/ po = firstn k X ++ [EmptyString].
Proof.
  unfold nonempty. revert po.
  induction X as [|c X IH]; intros po Hn Ht Heq Hp.
  - exists 0. simpl in *. destruct po as [|x po]; [auto|].
    simpl in Heq. subst tail. simpl in Ht.
    apply andb_true_iff in Ht. destruct Ht as [Hx Ht].
    destruct x; [|discriminate Hx].
    destruct po as [|y po]; [auto|]. simpl in Hp. discriminate Hp.
  - simpl in Hn. apply andb_true_iff in Hn. destruct Hn as [Hc Hn].
    destruct po as [|x po]; [exists 0; auto|].
    simpl in Heq. injection Heq as -> Heq.
    destruct po as [|y po]; [exists 1; auto|].
    destruct (IH (y :: po) Hn Ht Heq) as [k Hk].
    + change (removelast (c :: y :: po)) with (c :: removelast (y :: po)) in Hp.
      simpl in Hp. apply orb_false_iff in Hp. apply Hp.
    + exists (S k). simpl. destruct Hk as [Hk|Hk]; rewrite Hk; auto.
Qed.

(** X5: the Decompressor delivers the non-empty [chunks] and then the empty
    chunk.  Then, whenever and however often the cancellation flag is set
    and whether [close()] throws or not, the consumer has popped the first
    [k] chunks in their order, followed by at most one sentinel: a
    cancellation can cut the stream short, but it never reorders, repeats
    or invents a chunk. *)
Theorem consumer_sees_a_prefix_even_if_cancelled
    (chunks : list string) (cf : bool) (sched : list actor) :
  nonempty chunks ->
  exists k,
    popped (pipeline (stream chunks) cf sched) = firstn k chunks \/
    popped (pipeline (stream chunks) cf sched) = firstn k chunks ++ [EmptyString].
Proof.
  intros Hn.
  pose proof (order_inv_run chunks cf sched) as [j Ho].
  pose proof (fifo_inv_run (stream chunks) cf sched) as [Hq Hp].
  revert Ho Hq Hp. generalize (pipeline (stream chunks) cf sched).
  intros s Ho Hq Hp.
  assert (H : exists tail, pushed s = firstn j chunks ++ tail /\
                           forallb empty tail = true).
  { destruct (at_pc s); try exact Ho;
      destruct Ho as [Ho _]; exists []; rewrite app_nil_r; auto. }
  destruct H as (tail & Hpu & Ht). rewrite Hq in Hpu.
  destruct (popped_shape _ _ _ _ (nonempty_firstn j chunks Hn) Ht Hpu Hp)
    as [k Hk].
  exists (Nat.min k j). rewrite firstn_firstn in Hk. exact Hk.
Qed.

Lemma consumer_sees_a_prefix_even_if_cancelled_witness :
  exists k,
    popped (pipeline (stream ["a"%string; "b"%string]) true
              [Producer; Producer; Producer; Canceller; Consumer]) =
    firstn k ["a"%string; "b"%string] \/
    popped (pipeline (stream ["a"%string; "b"%string]) true
              [Producer; Producer; Producer; Canceller; Consumer]) =
    firstn k ["a"%string; "b"%string] ++ [EmptyString].
Proof.
  exact (consumer_sees_a_prefix_even_if_cancelled
           ["a"%string; "b"%string] true
           [Producer; Producer; Producer; Canceller; Consumer] eq_refl).
Defined.

End ReadThreadInvariants.

(* ================================================================== *)
(** * Part VI: further properties of the memory mappings *)
(* ================================================================== *)

Module MemoryMappingLifecycle.

Import Util MemoryMappingProps.

Local Open Scope Z_scope.

(** *** The two halves of a 64-bit number *)

(** X6: for every 64-bit number, [dword_hi] and [dword_lo] are 32-bit
    numbers that put together give the number back. *)
Theorem dword_halves_recombine (x : Z) :
  0 <= x < 2 ^ 64 ->
  0 <= dword_hi x < 2 ^ 32 /\ 0 <= dword_lo x < 2 ^ 32 /\
  dword_hi x * 2 ^ 32 + dword_lo x = x /\
  Z.lor (Z.shiftl (dword_hi x) 32) (dword_lo x) = x.
Proof.
  intros Hx. unfold dword_hi, dword_lo, wrap32.
  change 4294967295 with (Z.ones 32).
  rewrite Z.land_ones by lia. rewrite Z.shiftr_div_pow2 by lia.
  rewrite Z.mod_mod by lia.
  assert (Hhi : 0 <= x / 2 ^ 32 < 2 ^ 32).
  { split; [apply Z.div_pos; lia|]. apply Z.div_lt_upper_bound; lia. }
  rewrite (Z.mod_small (x / 2 ^ 32)) by exact Hhi.
  pose proof (Z.mod_pos_bound x (2 ^ 32) ltac:(lia)) as Hlo.
  assert (Hsum : x / 2 ^ 32 * 2 ^ 32 + x mod 2 ^ 32 = x).
  { pose proof (Z.div_mod x (2 ^ 32) ltac:(lia)). lia. }
  repeat split; try lia.
  rewrite <- Hsum at 3. rewrite Z.shiftl_mul_pow2 by lia.
  assert (Hdisj : Z.land (x / 2 ^ 32 * 2 ^ 32) (x mod 2 ^ 32) = 0);
    [|rewrite <- (Z.lxor_lor _ _ Hdisj), <- (Z.add_nocarry_lxor _ _ Hdisj);
      reflexivity].
  apply Z.bits_inj'. intros n Hn. rewrite Z.land_spec, Z.bits_0.
  destruct (Z.lt_ge_cases n 32) as [Hlt|Hge].
  - rewrite Z.mul_pow2_bits_low by lia. reflexivity.
  - rewrite (Z.mod_pow2_bits_high x 32 n) by lia. apply andb_false_r.
Qed.

Lemma dword_halves_recombine_witness :
  0 <= dword_hi 4294971392 < 2 ^ 32 /\ 0 <= dword_lo 4294971392 < 2 ^ 32 /\
  dword_hi 4294971392 * 2 ^ 32 + dword_lo 4294971392 = 4294971392 /\
  Z.lor (Z.shiftl (dword_hi 4294971392) 32) (dword_lo 4294971392) = 4294971392.
Proof.
  apply (dword_halves_recombine 4294971392). split; [lia | reflexivity].
Defined.

(** *** What a constructed mapping reports *)

(** X7: a mapping that the constructor returns is valid and reports what it
    was constructed with: [size()] is the size asked for (the page size
    for 0), [fd()] the descriptor, the offset is kept, and [writable()]
    tells whether the mode is not [readonly]; from the deprecated
    constructor, [writable()] is its [bool] argument. *)
Theorem constructed_mapping_reports_arguments
    (e : Env) (sz : Z) (mode : mapping_mode) (d off : Z) (w : world)
    (m : MemoryMapping) (w' : world) :
  ctor e sz mode d off w = (Ok m, w') ->
  operator_bool e m = true /\
  size m = check_size e sz /\ fd m = d /\ m_offset m = off /\
  writable m = negb (is_readonly mode) /\
  (forall wr m2 w2,
     ctor_deprecated e sz wr d off w = (Ok m2, w2) -> writable m2 = wr).
Proof.
  assert (Hmode : forall mo m1 w1,
            ctor e sz mo d off w = (Ok m1, w1) ->
            fd m1 = d /\ m_offset m1 = off /\ m_mapping_mode m1 = mo).
  { intros mo m1 w1. unfold fd. run_code.
    destruct (target e) eqn:Hp; simpl; split_ifs;
      intros H; inversion H; subst; clear H; simpl;
      repeat split;
      match goal with
      | Hd : (d =? -1) = true |- _ => apply Z.eqb_eq in Hd; congruence
      | _ => reflexivity
      end. }
  intros H.
  split; [exact (ctor_returns_valid e _ _ _ _ _ _ _ H)|].
  split; [exact (ctor_size e _ _ _ _ _ _ _ H)|].
  destruct (Hmode _ _ _ H) as (Hfd & Hoff & Hmo).
  split; [exact Hfd|]. split; [exact Hoff|].
  split; [unfold writable; rewrite Hmo; reflexivity|].
  intros wr m2 w2 H2. unfold ctor_deprecated in H2.
  destruct (Hmode _ _ _ H2) as (_ & _ & Hmo2).
  unfold writable. rewrite Hmo2. destruct wr; reflexivity.
Qed.

Lemma constructed_mapping_reports_arguments_witness :
  operator_bool (machine Linux false obliging)
    (mkMapping 10 0 3 write_shared 0 139637976727552) = true /\
  size (mkMapping 10 0 3 write_shared 0 139637976727552) =
  check_size (machine Linux false obliging) 10 /\
  fd (mkMapping 10 0 3 write_shared 0 139637976727552) = 3 /\
  m_offset (mkMapping 10 0 3 write_shared 0 139637976727552) = 0 /\
  writable (mkMapping 10 0 3 write_shared 0 139637976727552) =
  negb (is_readonly write_shared) /\
  (forall wr m2 w2,
     ctor_deprecated (machine Linux false obliging) 10 wr 3 0 [] = (Ok m2, w2) ->
     writable m2 = wr).
Proof.
  exact (constructed_mapping_reports_arguments (machine Linux false obliging)
           10 write_shared 3 0 []
           (mkMapping 10 0 3 write_shared 0 139637976727552)
           [file_size 3; mmap 10 3 1 3 0] eq_refl).
Defined.

(** *** The file behind a mapping *)

Ltac grown_path :=
  first
    [ exists []; split; [simpl; rewrite app_nil_r; reflexivity | reflexivity]
    | eexists; split;
      [ world_eq
      | unfold grows_only; simpl; rewrite ?Z.eqb_refl; use_tests; simpl;
        reflexivity ] ].

(** X8: the constructor and [resize()] never shrink a file.  They ask for
    a new file size only after they have asked for the size of the same
    file and got a smaller one; and a constructor that returns a mapping
    of a file reported shorter than offset plus size has asked for exactly
    that file size. *)
Theorem file_is_only_grown (e : Env) :
  (forall sz mode d off w,
     exists calls,
       snd (ctor e sz mode d off w) = w ++ calls /\
       grows_only e w calls = true) /\
  (forall n m w,
     exists calls,
       snd (snd (resize e n (m, w))) = w ++ calls /\
       grows_only e w calls = true) /\
  (forall sz mode d off w m w',
     ctor e sz mode d off w = (Ok m, w') ->
     d <> -1 ->
     reply e w (file_size d) < wrap64 (check_size e sz + off) ->
     exists rest,
       w' = w ++ file_size d ::
                 resize_file d (wrap64 (check_size e sz + off)) :: rest).
Proof.
  split; [|split].
  - intros. run_code.
    destruct (target e) eqn:Hp; simpl; rewrite ?negb_involutive;
      split_ifs; grown_path.
  - intros. run_code.
    destruct (target e) eqn:Hp; simpl; rewrite ?negb_involutive;
      split_ifs; grown_path.
  - intros sz mode d off w m w'. run_code.
    intros H Hd Hlt. apply Z.eqb_neq in Hd. apply Z.ltb_lt in Hlt.
    revert H. rewrite Hd. simpl.
    destruct (target e) eqn:Hp; simpl; rewrite ?Hlt; simpl; split_ifs;
      try discriminate Hlt;
      intros H; inversion H; subst; clear H;
      eexists; world_eq.
Qed.

(** *** [resize()] *)

Lemma resize_result (e : Env) (n : Z) (m m' : MemoryMapping) (w w' : world) :
  resize e n (m, w) = (Ok tt, (m', w')) ->
  (operator_bool e m' = true /\ size m' = n /\ fd m' = fd m /\
   m_offset m' = m_offset m /\ m_mapping_mode m' = m_mapping_mode m) \/
  (target e = OtherUnix /\ ndebug e = true /\ fd m = -1 /\ m' = m /\ w' = w).
Proof.
  unfold operator_bool, size, fd. run_code.
  destruct (target e) eqn:Hp; simpl; split_ifs;
    intros H; inversion H; subst; clear H; simpl;
    try (right; repeat split; try reflexivity; apply Z.eqb_eq; assumption);
    left; (split; [by_test|]); repeat split; reflexivity.
Qed.

(** X9: when [resize(n)] returns, the mapping is valid, [size()] is [n],
    and descriptor, offset and mode are as before.  The one exception:
    outside Linux and Windows, compiled with [NDEBUG], [resize()] on an
    anonymous mapping returns without having done anything. *)
Theorem resized_mapping_has_new_size
    (e : Env) (n : Z) (m m' : MemoryMapping) (w w' : world) :
  resize e n (m, w) = (Ok tt, (m', w')) ->
  (operator_bool e m' = true /\ size m' = n /\ fd m' = fd m /\
   m_offset m' = m_offset m /\ m_mapping_mode m' = m_mapping_mode m) \/
  (target e = OtherUnix /\ ndebug e = true /\ fd m = -1 /\ m' = m /\ w' = w).
Proof. apply resize_result. Qed.

Lemma resized_mapping_has_new_size_witness :
  (operator_bool (machine Linux false obliging)
     (mkMapping 8192 0 (-1) write_private 0 139637976731648) = true /\
   size (mkMapping 8192 0 (-1) write_private 0 139637976731648) = 8192 /\
   fd (mkMapping 8192 0 (-1) write_private 0 139637976731648) =
   fd (mkMapping 4096 0 (-1) write_private 0 139637976727552) /\
   m_offset (mkMapping 8192 0 (-1) write_private 0 139637976731648) =
   m_offset (mkMapping 4096 0 (-1) write_private 0 139637976727552) /\
   m_mapping_mode (mkMapping 8192 0 (-1) write_private 0 139637976731648) =
   m_mapping_mode (mkMapping 4096 0 (-1) write_private 0 139637976727552)) \/
  (target (machine Linux false obliging) = OtherUnix /\
   ndebug (machine Linux false obliging) = true /\
   fd (mkMapping 4096 0 (-1) write_private 0 139637976727552) = -1 /\
   mkMapping 8192 0 (-1) write_private 0 139637976731648 =
   mkMapping 4096 0 (-1) write_private 0 139637976727552 /\
   [mremap 139637976727552 4096 8192 1] = []).
Proof.
  exact (resized_mapping_has_new_size (machine Linux false obliging) 8192
           (mkMapping 4096 0 (-1) write_private 0 139637976727552)
           (mkMapping 8192 0 (-1) write_private 0 139637976731648)
           [] [mremap 139637976727552 4096 8192 1] eq_refl).
Defined.

(** X10: when [resize()] throws, the object is either untouched (its own
    [unmap()] could not release the old mapping) or it reports invalid: it
    is never left valid with an address that is no longer mapped. *)
Theorem failed_resize_leaves_no_stale_mapping
    (e : Env) (n : Z) (m : MemoryMapping) (w : world) :
  throws (fst (resize e n (m, w))) = true ->
  fst (snd (resize e n (m, w))) = m \/
  operator_bool e (fst (snd (resize e n (m, w)))) = false.
Proof.
  unfold operator_bool. run_code.
  destruct (target e) eqn:Hp; simpl; split_ifs; simpl;
    try discriminate; intros _;
    try (left; reflexivity);
    right; rewrite ?Z.eqb_refl; try reflexivity;
    repeat match goal with
           | H : negb (negb _) = _ |- _ => rewrite negb_involutive in H
           end;
    match goal with
    | H : ?b = true |- negb ?b = false => rewrite H; reflexivity
    | H : negb ?b = false |- negb ?b = false => exact H
    end.
Qed.

Lemma failed_resize_leaves_no_stale_mapping_witness :
  fst (snd (resize (machine Linux false unmap_refused) 8192
              (mkMapping 10 0 3 write_shared 0 139637976727552, []))) =
  mkMapping 10 0 3 write_shared 0 139637976727552 \/
  operator_bool (machine Linux false unmap_refused)
    (fst (snd (resize (machine Linux false unmap_refused) 8192
                 (mkMapping 10 0 3 write_shared 0 139637976727552, [])))) =
  false.
Proof.
  exact (failed_resize_leaves_no_stale_mapping
           (machine Linux false unmap_refused) 8192
           (mkMapping 10 0 3 write_shared 0 139637976727552) [] eq_refl).
Defined.

(** *** Ownership *)

Lemma dtor_owns_nothing (e : Env) (m : MemoryMapping) (w : world) :
  owns_nothing e m = true -> dtor e (m, w) = (Ok tt, (m, w)).
Proof.
  intros H. unfold dtor, noexcept, try_ignore.
  rewrite (unmap_owns_nothing e m w H). reflexivity.
Qed.

(** X11: after a move construction the mapping has one owner.  The
    destructor of the object moved from makes no call of the system, and
    the destructor of the new object makes the calls that the destructor
    of the source would have made before the move; both return. *)
Theorem moved_mapping_is_released_once
    (e : Env) (other : MemoryMapping) (w : world) :
  dtor e (snd (move_ctor e other), w) = (Ok tt, (snd (move_ctor e other), w)) /\
  snd (snd (dtor e (fst (move_ctor e other), w))) =
  snd (snd (dtor e (other, w))) /\
  fst (dtor e (fst (move_ctor e other), w)) = Ok tt.
Proof.
  split; [apply dtor_owns_nothing, moved_from_owns_nothing|].
  assert (H : fst (move_ctor e other) = other).
  { unfold move_ctor. destruct other. destruct (target e); reflexivity. }
  rewrite H. split; [reflexivity | apply dtor_returns].
Qed.

(** X12: what the destructor releases is what the constructor mapped.
    After a constructor has returned, its last call is the mapping call,
    for [size()] bytes and answered with the address of the mapping; the
    destructor of the Unix implementation then makes one call,
    [munmap] of that address and that length; the destructor of the Windows
    implementation unmaps the view at that address and, unless this was
    refused, closes the handle that [CreateFileMapping] returned. *)
Theorem destructor_releases_what_was_mapped
    (e : Env) (sz : Z) (mode : mapping_mode) (d off : Z) (w : world)
    (m : MemoryMapping) (w' : world) :
  ctor e sz mode d off w = (Ok m, w') ->
  (exists before c,
     w' = before ++ [c] /\ mapped_length c = Some (size m) /\
     get_addr m = reply e before c) /\
  match target e with
  | Windows =>
      (exists before hfile prot hi lo view,
         w' = (before ++ [CreateFileMapping hfile prot hi lo]) ++ [view] /\
         m_handle m = reply e before (CreateFileMapping hfile prot hi lo)) /\
      snd (snd (dtor e (m, w'))) =
      if reply e w' (UnmapViewOfFile (get_addr m)) =? 0
      then w' ++ [UnmapViewOfFile (get_addr m)]
      else w' ++ [UnmapViewOfFile (get_addr m); CloseHandle (m_handle m)]
  | _ =>
      snd (snd (dtor e (m, w'))) = w' ++ [munmap (get_addr m) (size m)]
  end.
Proof.
  intros H. pose proof (ctor_returns_valid e _ _ _ _ _ _ _ H) as Hv.
  split.
  - revert H. unfold size, get_addr. run_code.
    destruct (target e) eqn:Hp; simpl; split_ifs;
      intros H; inversion H; subst; clear H;
      eexists _, _; (split; [reflexivity|]); split; reflexivity.
  - destruct (target e) eqn:Hp.
    1,2: unfold dtor, noexcept, try_ignore, get_addr, size;
      rewrite unmap_posix, Hv by congruence;
      destruct (negb _); reflexivity.
    split.
    + revert H. run_code. rewrite Hp. simpl.
      split_ifs; intros H; inversion H; subst; clear H; simpl;
        eexists _, _, _, _, _, _; split; reflexivity.
    + assert (Hh : (m_handle m =? nullptr) = false).
      { revert H. run_code. rewrite Hp. simpl.
        split_ifs; intros H; inversion H; subst; clear H; simpl; assumption. }
      unfold dtor, noexcept, try_ignore, get_addr.
      rewrite unmap_windows, Hv, Hh by exact Hp. simpl.
      destruct (reply e w' (UnmapViewOfFile (m_addr m)) =? 0); simpl;
        [reflexivity|].
      destruct (reply e _ (CloseHandle (m_handle m)) =? 0);
        rewrite <- app_assoc; reflexivity.
Qed.

Lemma destructor_releases_what_was_mapped_witness :
  snd (snd (dtor (machine OtherUnix false obliging)
              (mkMapping 10 0 3 write_shared 0 139637976727552,
               [file_size 3; mmap 10 3 1 3 0]))) =
  [file_size 3; mmap 10 3 1 3 0] ++
  [munmap (get_addr (mkMapping 10 0 3 write_shared 0 139637976727552))
          (size (mkMapping 10 0 3 write_shared 0 139637976727552))].
Proof.
  exact (proj2 (destructor_releases_what_was_mapped
                  (machine OtherUnix false obliging) 10 write_shared 3 0 []
                  (mkMapping 10 0 3 write_shared 0 139637976727552)
                  [file_size 3; mmap 10 3 1 3 0] eq_refl)).
Defined.

(** *** Typed mappings *)

Lemma typed_size_of_multiple (e : Env) (sizeof_T n : Z) (m : MemoryMapping)
    (w : world) :
  0 < sizeof_T -> size m = sizeof_T * n ->
  typed_size e sizeof_T (m, w) = (Ok n, (m, w)).
Proof.
  intros Hs H. unfold typed_size, assert. monad.
  assert (Hmod : size m mod sizeof_T = 0)
    by (rewrite H, Z.mul_comm; apply Z.mod_mul; lia).
  assert (Hdiv : size m / sizeof_T = n)
    by (rewrite H, Z.mul_comm; apply Z.div_mul; lia).
  rewrite Hmod, Hdiv. simpl. destruct (ndebug e); reflexivity.
Qed.

(** X13: [size()] of a typed mapping is the number of elements it was
    created with or resized to, for every number of elements greater than
    0 whose bytes fit [std::size_t]; a mapping of a file starts at byte
    [sizeof(T) * offset] of the file.  (For [resize], except where it
    returns without resizing: an anonymous mapping outside Linux and
    Windows, with [NDEBUG].) *)
Theorem typed_size_is_element_count (e : Env) (sizeof_T n : Z) :
  0 < sizeof_T -> 0 < n -> sizeof_T * n < 2 ^ 64 ->
  (forall w m w',
     typed_ctor e sizeof_T n w = (Ok m, w') ->
     typed_size e sizeof_T (m, w') = (Ok n, (m, w'))) /\
  (forall mode d k w m w',
     typed_ctor_fd e sizeof_T n mode d k w = (Ok m, w') ->
     typed_size e sizeof_T (m, w') = (Ok n, (m, w')) /\
     (0 <= k -> sizeof_T * k < 2 ^ 63 -> m_offset m = sizeof_T * k)) /\
  (forall m w m' w',
     typed_resize e sizeof_T n (m, w) = (Ok tt, (m', w')) ->
     ~ (target e = OtherUnix /\ ndebug e = true /\ fd m = -1) ->
     typed_size e sizeof_T (m', w') = (Ok n, (m', w'))).
Proof.
  intros Hs Hn Hlt.
  assert (Hw : wrap64 (sizeof_T * n) = sizeof_T * n)
    by (unfold wrap64; apply Z.mod_small; nia).
  assert (Hc : check_size e (sizeof_T * n) = sizeof_T * n).
  { unfold check_size. destruct (sizeof_T * n =? 0) eqn:Hz; [|reflexivity].
    apply Z.eqb_eq in Hz. nia. }
  split; [|split].
  - intros w m w' H. unfold typed_ctor in H. apply ctor_size in H.
    rewrite Hw, Hc in H. apply typed_size_of_multiple; assumption.
  - intros mode d k w m w' H. unfold typed_ctor_fd in H. split.
    + apply ctor_size in H. rewrite Hw, Hc in H.
      apply typed_size_of_multiple; assumption.
    + intros Hk Hklt.
      assert (Hoff : m_offset m = to_off_t (wrap64 (sizeof_T * k))).
      { revert H. run_code.
        destruct (target e) eqn:Hp; simpl; split_ifs;
          intros H; inversion H; reflexivity. }
      rewrite Hoff. unfold to_off_t, wrap64.
      rewrite (Z.mod_small (sizeof_T * k)) by nia.
      rewrite Z.mod_small by nia. lia.
  - intros m w m' w' H Hex. unfold typed_resize in H.
    destruct (resize_result e _ _ _ _ _ H) as [(_ & Hsz & _)|(H1 & H2 & H3 & _)].
    + rewrite Hw in Hsz. apply typed_size_of_multiple; assumption.
    + exfalso. apply Hex. auto.
Qed.

Lemma typed_size_is_element_count_witness :
  (forall w m w',
     typed_ctor (machine Linux false obliging) 12 100 w = (Ok m, w') ->
     typed_size (machine Linux false obliging) 12 (m, w') = (Ok 100, (m, w'))) /\
  (forall mode d k w m w',
     typed_ctor_fd (machine Linux false obliging) 12 100 mode d k w = (Ok m, w') ->
     typed_size (machine Linux false obliging) 12 (m, w') = (Ok 100, (m, w')) /\
     (0 <= k -> 12 * k < 2 ^ 63 -> m_offset m = 12 * k)) /\
  (forall m w m' w',
     typed_resize (machine Linux false obliging) 12 100 (m, w) =
     (Ok tt, (m', w')) ->
     ~ (target (machine Linux false obliging) = OtherUnix /\
        ndebug (machine Linux false obliging) = true /\ fd m = -1) ->
     typed_size (machine Linux false obliging) 12 (m', w') = (Ok 100, (m', w'))).
Proof.
  apply (typed_size_is_element_count (machine Linux false obliging) 12 100);
    reflexivity.
Defined.

(** X14: the elements between [begin()] and [end()] lie inside the mapped
    bytes.  For a mapping whose bytes do not reach the end of the address
    space, [end()] is at or after [begin()], a whole number of elements
    away, and at most at the end of the mapped bytes, with less than one
    element left over: also when the size is no multiple of [sizeof(T)]. *)
Theorem typed_range_lies_in_mapping
    (e : Env) (sizeof_T : Z) (m : MemoryMapping) (w : world) (p : Z)
    (st : MemoryMapping * world) :
  0 < sizeof_T -> 0 <= size m -> 0 <= get_addr m ->
  get_addr m + size m < 2 ^ 64 ->
  typed_end e sizeof_T (m, w) = (Ok p, st) ->
  typed_begin m <= p <= get_addr m + size m /\
  (p - typed_begin m) mod sizeof_T = 0 /\
  get_addr m + size m - p < sizeof_T /\
  st = (m, w).
Proof.
  intros Hs Hsz Ha Hend. unfold typed_end, typed_size, typed_begin, assert.
  monad.
  pose proof (Z.div_mod (size m) sizeof_T ltac:(lia)) as Hdm.
  pose proof (Z.mod_pos_bound (size m) sizeof_T Hs) as Hmb.
  assert (Hq : 0 <= size m / sizeof_T) by (apply Z.div_pos; lia).
  assert (Hw : wrap64 (get_addr m + sizeof_T * (size m / sizeof_T)) =
               get_addr m + sizeof_T * (size m / sizeof_T)).
  { unfold wrap64. apply Z.mod_small. nia. }
  unfold size, get_addr in *.
  destruct (ndebug e); simpl;
    [|destruct (m_size m mod sizeof_T =? 0); simpl; [|discriminate]];
    intros H; inversion H; subst; clear H; rewrite Hw;
    (split; [nia|]); (split; [|split; [nia | reflexivity]]);
    replace (m_addr m + sizeof_T * (m_size m / sizeof_T) - m_addr m)
      with (m_size m / sizeof_T * sizeof_T) by lia;
    apply Z.mod_mul; lia.
Qed.

Lemma typed_range_lies_in_mapping_witness :
  typed_begin (mkMapping 4096 0 (-1) write_private 0 139637976727552) <=
  139637976731647 <=
  get_addr (mkMapping 4096 0 (-1) write_private 0 139637976727552) +
  size (mkMapping 4096 0 (-1) write_private 0 139637976727552) /\
  (139637976731647 -
   typed_begin (mkMapping 4096 0 (-1) write_private 0 139637976727552)) mod 3 =
  0 /\
  get_addr (mkMapping 4096 0 (-1) write_private 0 139637976727552) +
  size (mkMapping 4096 0 (-1) write_private 0 139637976727552) -
  139637976731647 < 3 /\
  (mkMapping 4096 0 (-1) write_private 0 139637976727552, @nil os_call) =
  (mkMapping 4096 0 (-1) write_private 0 139637976727552, []).
Proof.
  apply (typed_range_lies_in_mapping (machine Linux true obliging) 3
           (mkMapping 4096 0 (-1) write_private 0 139637976727552) []
           139637976731647
           (mkMapping 4096 0 (-1) write_private 0 139637976727552, []));
    try reflexivity; simpl; lia.
Defined.

End MemoryMappingLifecycle.

(* ================================================================== *)
(** * Part VII: properties of the multimap and of the member types *)
(* ================================================================== *)

Module MultimapProps.

Import Multimap.

Local Open Scope Z_scope.

Section WithValues.

Variable TValue : Type.
Variable value_eqb : TValue -> TValue -> bool.
Variable value_ltb : TValue -> TValue -> bool.

Lemma ordered_tail (el : Z * TValue) (c : list (Z * TValue)) :
  ordered TValue (el :: c) = true -> ordered TValue c = true.
Proof.
  destruct el as [k x]. simpl. destruct c as [|[k' x'] rest]; [reflexivity|].
  intros H. apply andb_true_iff in H. apply H.
Qed.

(** In an ordered collection no key is smaller than the first. *)
Lemma ordered_first (k : Z) (x : TValue) (c : list (Z * TValue)) :
  ordered TValue ((k, x) :: c) = true -> Forall (fun el => k <= fst el) c.
Proof.
  revert k x. induction c as [|[k' x'] rest IH]; intros k x H; [constructor|].
  simpl in H. apply andb_true_iff in H. destruct H as [Hk H].
  apply Z.leb_le in Hk. constructor; [exact Hk|].
  specialize (IH k' x' H). eapply Forall_impl; [|exact IH].
  simpl. intros el Hel. lia.
Qed.

Lemma filter_none {A : Type} (p : A -> bool) (l : list A) :
  Forall (fun a => p a = false) l -> filter p l = [].
Proof.
  induction 1 as [|a l Ha _ IH]; simpl; [reflexivity|]. rewrite Ha. exact IH.
Qed.

Lemma filter_all {A : Type} (p : A -> bool) (l : list A) :
  Forall (fun a => p a = true) l -> filter p l = l.
Proof.
  induction 1 as [|a l Ha _ IH]; simpl; [reflexivity|]. rewrite Ha, IH.
  reflexivity.
Qed.

(** An ordered collection is the three parts of [equal_range], one after
    the other. *)
Lemma ordered_split (id : Z) (c : list (Z * TValue)) :
  ordered TValue c = true ->
  c = before_range TValue id c ++ equal_range TValue id c ++
      after_range TValue id c.
Proof.
  unfold before_range, equal_range, after_range.
  induction c as [|[k x] rest IH]; intros H; [reflexivity|].
  pose proof (ordered_first k x rest H) as Hge.
  specialize (IH (ordered_tail _ _ H)). simpl.
  destruct (k <? id) eqn:Hlt.
  - apply Z.ltb_lt in Hlt.
    replace (k =? id) with false by (symmetry; apply Z.eqb_neq; lia).
    replace (id <? k) with false by (symmetry; apply Z.ltb_ge; lia).
    simpl. rewrite <- IH. reflexivity.
  - apply Z.ltb_ge in Hlt.
    assert (Hb : filter (fun el : Z * TValue => fst el <? id) rest = []).
    { apply filter_none. eapply Forall_impl; [|exact Hge].
      simpl. intros el Hel. apply Z.ltb_ge. lia. }
    rewrite Hb in *. simpl in *.
    destruct (k =? id) eqn:Heq.
    + apply Z.eqb_eq in Heq.
      replace (id <? k) with false by (symmetry; apply Z.ltb_ge; lia).
      simpl. rewrite <- IH. reflexivity.
    + apply Z.eqb_neq in Heq.
      replace (id <? k) with true by (symmetry; apply Z.ltb_lt; lia).
      assert (He : filter (fun el : Z * TValue => fst el =? id) rest = []).
      { apply filter_none. eapply Forall_impl; [|exact Hge].
        simpl. intros el Hel. apply Z.eqb_neq. lia. }
      rewrite He in *. simpl in *. rewrite <- IH. reflexivity.
Qed.

(** [emplace] adds one element and moves no other. *)
Lemma filter_emplace (p : Z * TValue -> bool) (id : Z) (value : TValue)
    (c : list (Z * TValue)) :
  p (id, value) = false ->
  filter p (emplace TValue id value c) = filter p c.
Proof.
  intros Hp. induction c as [|[k x] rest IH]; simpl.
  - rewrite Hp; reflexivity.
  - destruct (id <? k); simpl; [rewrite Hp; reflexivity|].
    rewrite IH. reflexivity.
Qed.

Lemma length_emplace (id : Z) (value : TValue) (c : list (Z * TValue)) :
  length (emplace TValue id value c) = S (length c).
Proof.
  induction c as [|[k x] rest IH]; simpl; [reflexivity|].
  destruct (id <? k); simpl; [reflexivity|]. rewrite IH. reflexivity.
Qed.

Lemma equal_range_emplace (id : Z) (value : TValue) (c : list (Z * TValue)) :
  ordered TValue c = true ->
  equal_range TValue id (emplace TValue id value c) =
  equal_range TValue id c ++ [(id, value)].
Proof.
  unfold equal_range.
  induction c as [|[k x] rest IH]; intros H; simpl.
  - rewrite Z.eqb_refl. reflexivity.
  - pose proof (ordered_first k x rest H) as Hge.
    specialize (IH (ordered_tail _ _ H)).
    destruct (id <? k) eqn:Hlt; simpl.
    + apply Z.ltb_lt in Hlt. rewrite Z.eqb_refl.
      replace (k =? id) with false by (symmetry; apply Z.eqb_neq; lia).
      rewrite filter_none; [reflexivity|].
      eapply Forall_impl; [|exact Hge].
      simpl. intros el Hel. apply Z.eqb_neq. lia.
    + rewrite IH. destruct (k =? id); reflexivity.
Qed.

Lemma ordered_emplace (id : Z) (value : TValue) (c : list (Z * TValue)) :
  ordered TValue c = true -> ordered TValue (emplace TValue id value c) = true.
Proof.
  induction c as [|[k x] rest IH]; intros H; [reflexivity|].
  specialize (IH (ordered_tail _ _ H)).
  cbn [emplace]. destruct (id <? k) eqn:Hlt.
  - apply Z.ltb_lt in Hlt. cbn [ordered].
    apply andb_true_iff. split; [apply Z.leb_le; lia | exact H].
  - apply Z.ltb_ge in Hlt.
    destruct rest as [|[k' x'] rest'].
    + simpl. rewrite andb_true_r. apply Z.leb_le. exact Hlt.
    + cbn [emplace] in *. destruct (id <? k') eqn:Hlt'.
      * cbn [ordered]. cbn [ordered] in H.
        apply andb_true_iff in H. destruct H as [_ H].
        apply Z.ltb_lt in Hlt'.
        repeat (apply andb_true_iff; split); try (apply Z.leb_le; lia).
        exact H.
      * cbn [ordered] in H. apply andb_true_iff in H. destruct H as [Hk _].
        change (ordered TValue ((k, x) :: (k', x') :: emplace TValue id value rest'))
          with ((k <=? k') &&
                ordered TValue ((k', x') :: emplace TValue id value rest')).
        rewrite Hk. exact IH.
Qed.

(** X15: [set] (and [unsorted_set]) adds and never replaces.  After
    [set(id, value)] on a map, the values under [id] are those that were
    there, in their order, followed by the new one; the values under every
    other id are as before; [size()] has grown by one and [used_memory()]
    by the size of one element (in the arithmetic of [size_t]); and the
    map is still ordered by id. *)
Theorem set_appends_to_the_values_of_its_id
    (sizeof_TId sizeof_TValue sizeof_pointer : Z)
    (id : Z) (value : TValue) (m_elements : list (Z * TValue)) :
  ordered TValue m_elements = true ->
  get_all TValue id (set TValue id value m_elements) =
  get_all TValue id m_elements ++ [(id, value)] /\
  (forall other, other <> id ->
     get_all TValue other (set TValue id value m_elements) =
     get_all TValue other m_elements) /\
  size TValue (set TValue id value m_elements) = size TValue m_elements + 1 /\
  used_memory TValue sizeof_TId sizeof_TValue sizeof_pointer
    (set TValue id value m_elements) =
  Util.wrap64
    (used_memory TValue sizeof_TId sizeof_TValue sizeof_pointer m_elements +
     element_size sizeof_TId sizeof_TValue sizeof_pointer) /\
  unsorted_set TValue id value m_elements = set TValue id value m_elements /\
  ordered TValue (set TValue id value m_elements) = true.
Proof.
  intros H. unfold get_all, set, unsorted_set, used_memory, size.
  split; [apply equal_range_emplace, H|].
  split.
  { intros other Ho. unfold equal_range. apply filter_emplace.
    simpl. apply Z.eqb_neq. congruence. }
  rewrite !length_emplace, Nat2Z.inj_succ.
  split; [lia|].
  split.
  { unfold Util.wrap64. rewrite Z.add_mod_idemp_l by lia. f_equal. lia. }
  split; [reflexivity|].
  apply ordered_emplace, H.
Qed.



(** [erase_first] leaves the range as it is, or takes one element out. *)
Lemma erase_first_cases (value : TValue) (range : list (Z * TValue)) :
  (existsb (fun el => value_eqb (snd el) value) range = false /\
   erase_first TValue value_eqb value range = range) \/
  (exists r1 el r2,
     range = r1 ++ el :: r2 /\
     erase_first TValue value_eqb value range = r1 ++ r2 /\
     value_eqb (snd el) value = true /\
     existsb (fun el => value_eqb (snd el) value) r1 = false).
Proof.
  induction range as [|a rest IH]; simpl;
    [left; split; reflexivity|].
  destruct (value_eqb (snd a) value) eqn:Ha.
  - right. exists [], a, rest. repeat split; auto.
  - destruct IH as [[He Hr] | (r1 & el & r2 & Hr & Hx & Hel & Hn)].
    + left. simpl. split; [exact He | rewrite Hr; reflexivity].
    + right. exists (a :: r1), el, r2. simpl.
      rewrite Hr at 1. rewrite Hx, Ha. repeat split; auto.
Qed.

Lemma filter_filter_none {A : Type} (p q : A -> bool) (l : list A) :
  (forall a, q a = true -> p a = false) -> filter p (filter q l) = [].
Proof.
  intros H. apply filter_none. apply Forall_forall. intros a Ha.
  apply filter_In in Ha. apply H, Ha.
Qed.

Lemma Forall_erase_first (P : Z * TValue -> Prop) (value : TValue)
    (range : list (Z * TValue)) :
  Forall P range -> Forall P (erase_first TValue value_eqb value range).
Proof.
  induction 1 as [|a l Ha Hl IH]; simpl; [constructor|].
  destruct (value_eqb (snd a) value); [exact Hl | constructor; assumption].
Qed.

Lemma equal_range_keys (id : Z) (c : list (Z * TValue)) :
  Forall (fun el => fst el = id) (equal_range TValue id c).
Proof.
  apply Forall_forall. intros el H. apply filter_In in H.
  apply Z.eqb_eq, H.
Qed.

(** The three parts of [remove], seen through [equal_range]. *)
Lemma equal_range_remove (id other : Z) (value : TValue)
    (c : list (Z * TValue)) :
  equal_range TValue other (remove TValue value_eqb id value c) =
  if other =? id then erase_first TValue value_eqb value (get_all TValue id c)
  else equal_range TValue other
         (before_range TValue id c ++ after_range TValue id c).
Proof.
  unfold remove, get_all.
  pose proof (Forall_erase_first _ value _ (equal_range_keys id c)) as Hk.
  unfold equal_range at 1. rewrite !filter_app. fold (equal_range TValue id c).
  destruct (other =? id) eqn:Ho.
  - apply Z.eqb_eq in Ho. subst other.
    unfold before_range, after_range.
    rewrite !filter_filter_none.
    + simpl. rewrite app_nil_r. apply filter_all.
      eapply Forall_impl; [|exact Hk]. simpl. intros el H. apply Z.eqb_eq, H.
    + intros a H. apply Z.ltb_lt in H. apply Z.eqb_neq. lia.
    + intros a H. apply Z.ltb_lt in H. apply Z.eqb_neq. lia.
  - apply Z.eqb_neq in Ho.
    rewrite (filter_none _ (erase_first TValue value_eqb value _)).
    + unfold equal_range. rewrite filter_app. reflexivity.
    + eapply Forall_impl; [|exact Hk]. simpl. intros el H.
      apply Z.eqb_neq. lia.
Qed.



(** What [remove] does to the number of elements. *)
Lemma remove_size (id : Z) (value : TValue) (c : list (Z * TValue)) :
  ordered TValue c = true ->
  if existsb (fun el => value_eqb (snd el) value) (get_all TValue id c)
  then size TValue (remove TValue value_eqb id value c) = size TValue c - 1
  else remove TValue value_eqb id value c = c.
Proof.
  intros H.
  unfold remove, size.
  destruct (erase_first_cases value (get_all TValue id c))
    as [[He Hr] | (r1 & el & r2 & Hr & Hx & Hel & Hn)].
  - rewrite He, Hr. symmetry. apply ordered_split, H.
  - replace (existsb _ _) with true.
    + rewrite Hx. pose proof (ordered_split id c H) as Hc.
      unfold get_all in Hr. rewrite Hr in Hc.
      apply (f_equal (@length _)) in Hc.
      rewrite !length_app in *. cbn [length] in *. lia.
    + symmetry. rewrite Hr, existsb_app. simpl. rewrite Hel.
      rewrite orb_true_r. reflexivity.
Qed.


Lemma erase_first_last (value : TValue) (el : Z * TValue)
    (range : list (Z * TValue)) :
  existsb (fun el => value_eqb (snd el) value) range = false ->
  value_eqb (snd el) value = true ->
  erase_first TValue value_eqb value (range ++ [el]) = range.
Proof.
  intros Hn Hel. induction range as [|a rest IH]; simpl.
  - rewrite Hel. reflexivity.
  - simpl in Hn. apply orb_false_iff in Hn. destruct Hn as [Ha Hn].
    rewrite Ha, (IH Hn). reflexivity.
Qed.

(** X17: [set] followed by [remove] of the same pair.  [size()] is back at
    what it was; and if no equal value was stored under the id before, the
    map is exactly the old one.  (If an equal value was there, it is that
    older element which [remove] erases, not the new one.) *)
Theorem remove_undoes_set
    (id : Z) (value : TValue) (m_elements : list (Z * TValue)) :
  ordered TValue m_elements = true ->
  value_eqb value value = true ->
  size TValue (remove TValue value_eqb id value (set TValue id value m_elements)) =
  size TValue m_elements /\
  (existsb (fun el => value_eqb (snd el) value) (get_all TValue id m_elements)
   = false ->
   remove TValue value_eqb id value (set TValue id value m_elements) =
   m_elements) /\
  (forall r1 old r2,
     get_all TValue id m_elements = r1 ++ old :: r2 ->
     existsb (fun el => value_eqb (snd el) value) r1 = false ->
     value_eqb (snd old) value = true ->
     get_all TValue id
       (remove TValue value_eqb id value (set TValue id value m_elements)) =
     r1 ++ r2 ++ [(id, value)]).
Proof.
  intros H Hv.
  assert (Hset : ordered TValue (set TValue id value m_elements) = true)
    by apply ordered_emplace, H.
  assert (Hget : get_all TValue id (set TValue id value m_elements) =
                 get_all TValue id m_elements ++ [(id, value)])
    by apply equal_range_emplace, H.
  split.
  { pose proof (remove_size id value
                  (set TValue id value m_elements) Hset) as Hs.
    rewrite Hget, existsb_app in Hs. simpl in Hs. rewrite Hv in Hs.
    rewrite orb_true_r in Hs. simpl in Hs.
    rewrite Hs. unfold size, set. rewrite length_emplace. lia. }
  split.
  { intros Hn. unfold remove. rewrite Hget.
    rewrite erase_first_last by (simpl; assumption).
    unfold before_range, after_range, set.
    rewrite !filter_emplace by (simpl; apply Z.ltb_irrefl).
    symmetry. apply ordered_split, H. }
  intros r1 old r2 Hr Hn Ho. unfold get_all at 1.
  rewrite equal_range_remove, Z.eqb_refl, Hget, Hr.
  rewrite <- app_assoc. simpl.
  clear Hr Hget. induction r1 as [|a r1 IH]; simpl.
  - rewrite Ho. reflexivity.
  - simpl in Hn. apply orb_false_iff in Hn. destruct Hn as [Ha Hn].
    rewrite Ha, (IH Hn). reflexivity.
Qed.

Lemma insert_sorted_perm (x : Z * TValue) (v : list (Z * TValue)) :
  Permutation (insert_sorted TValue value_ltb x v) (x :: v).
Proof.
  induction v as [|y rest IH]; simpl; [apply Permutation_refl|].
  destruct (element_ltb TValue value_ltb y x); [|apply Permutation_refl].
  eapply perm_trans; [apply perm_skip, IH | apply perm_swap].
Qed.

Lemma sort_perm (v : list (Z * TValue)) :
  Permutation (sort TValue value_ltb v) v.
Proof.
  induction v as [|x rest IH]; simpl; [apply perm_nil|].
  eapply perm_trans; [apply insert_sorted_perm | apply perm_skip, IH].
Qed.

(** [operator<] of pairs never holds both ways if that of the values
    does not. *)
Lemma element_ltb_asym (a b : Z * TValue) :
  (forall x y, value_ltb x y = true -> value_ltb y x = false) ->
  element_ltb TValue value_ltb a b = true ->
  element_ltb TValue value_ltb b a = false.
Proof.
  intros Hv. unfold element_ltb. destruct a as [k x], b as [k' y]. simpl.
  destruct (k <? k') eqn:H1, (k' <? k) eqn:H2; simpl; try reflexivity.
  - apply Z.ltb_lt in H1. apply Z.ltb_lt in H2. lia.
  - discriminate.
  - apply Hv.
Qed.

Lemma insert_sorted_sorted (x : Z * TValue) (v : list (Z * TValue)) :
  (forall x y, value_ltb x y = true -> value_ltb y x = false) ->
  Sorted (fun a b => element_ltb TValue value_ltb b a = false) v ->
  Sorted (fun a b => element_ltb TValue value_ltb b a = false)
    (insert_sorted TValue value_ltb x v).
Proof.
  intros Hv. induction 1 as [|y rest Hs IH Hhd]; simpl.
  - repeat constructor.
  - destruct (element_ltb TValue value_ltb y x) eqn:Hyx.
    + constructor; [exact IH|].
      destruct Hhd as [|z rest' Hz]; simpl.
      * constructor. apply element_ltb_asym; assumption.
      * destruct (element_ltb TValue value_ltb z x); constructor;
          [exact Hz | apply element_ltb_asym; assumption].
    + constructor; [constructor; assumption|]. constructor. exact Hyx.
Qed.

(** X18: [dump_as_list(fd)] hands [reliable_write] the descriptor it was
    given and every element of the map exactly once, sorted by
    [operator<] of the pairs (by id and, among equal ids, by value: not
    in the order of insertion), and a byte count of [sizeof(element_type)]
    times [size()].  [std::sort] stands here as a sort by insertion; that
    the result is sorted needs an [operator<] of the values that never
    holds both ways. *)
Theorem dump_writes_every_element_sorted
    (sizeof_element_type fd : Z) (m_elements : list (Z * TValue)) :
  (forall x y, value_ltb x y = true -> value_ltb y x = false) ->
  exists v,
    dump_as_list TValue value_ltb sizeof_element_type fd m_elements =
    (fd, v, Util.wrap64 (sizeof_element_type * size TValue m_elements)) /\
    Permutation v m_elements /\
    Sorted (fun a b => element_ltb TValue value_ltb b a = false) v.
Proof.
  intros Hv. exists (sort TValue value_ltb m_elements).
  split.
  { unfold dump_as_list, size.
    rewrite (Permutation_length (sort_perm m_elements)). reflexivity. }
  split; [apply sort_perm|].
  induction m_elements as [|x rest IH]; simpl; [constructor|].
  apply insert_sorted_sorted; assumption.
Qed.

End WithValues.

Lemma set_appends_to_the_values_of_its_id_witness :
  get_all Z 7 (set Z 7 30 [(5, 10); (7, 20); (9, 40)]) =
  get_all Z 7 [(5, 10); (7, 20); (9, 40)] ++ [(7, 30)] /\
  (forall other, other <> 7 ->
     get_all Z other (set Z 7 30 [(5, 10); (7, 20); (9, 40)]) =
     get_all Z other [(5, 10); (7, 20); (9, 40)]) /\
  size Z (set Z 7 30 [(5, 10); (7, 20); (9, 40)]) =
  size Z [(5, 10); (7, 20); (9, 40)] + 1 /\
  used_memory Z 8 8 8 (set Z 7 30 [(5, 10); (7, 20); (9, 40)]) =
  Util.wrap64
    (used_memory Z 8 8 8 [(5, 10); (7, 20); (9, 40)] + element_size 8 8 8) /\
  unsorted_set Z 7 30 [(5, 10); (7, 20); (9, 40)] =
  set Z 7 30 [(5, 10); (7, 20); (9, 40)] /\
  ordered Z (set Z 7 30 [(5, 10); (7, 20); (9, 40)]) = true.
Proof.
  exact (set_appends_to_the_values_of_its_id Z 8 8 8 7 30
           [(5, 10); (7, 20); (9, 40)] eq_refl).
Defined.


Lemma remove_undoes_set_witness :
  size Z (remove Z Z.eqb 7 30 (set Z 7 30 [(5, 10); (7, 20); (9, 40)])) =
  size Z [(5, 10); (7, 20); (9, 40)] /\
  (existsb (fun el => snd el =? 30) (get_all Z 7 [(5, 10); (7, 20); (9, 40)])
   = false ->
   remove Z Z.eqb 7 30 (set Z 7 30 [(5, 10); (7, 20); (9, 40)]) =
   [(5, 10); (7, 20); (9, 40)]) /\
  (forall r1 old r2,
     get_all Z 7 [(5, 10); (7, 20); (9, 40)] = r1 ++ old :: r2 ->
     existsb (fun el => snd el =? 30) r1 = false ->
     (snd old =? 30) = true ->
     get_all Z 7 (remove Z Z.eqb 7 30 (set Z 7 30 [(5, 10); (7, 20); (9, 40)])) =
     r1 ++ r2 ++ [(7, 30)]).
Proof.
  exact (remove_undoes_set Z Z.eqb 7 30 [(5, 10); (7, 20); (9, 40)]
           eq_refl eq_refl).
Defined.

Lemma dump_writes_every_element_sorted_witness :
  exists v,
    dump_as_list Z Z.ltb 16 3 [(5, 10); (7, 30); (7, 20); (9, 40)] =
    (3, v, Util.wrap64 (16 * size Z [(5, 10); (7, 30); (7, 20); (9, 40)])) /\
    Permutation v [(5, 10); (7, 30); (7, 20); (9, 40)] /\
    Sorted (fun a b => element_ltb Z Z.ltb b a = false) v.
Proof.
  apply (dump_writes_every_element_sorted Z Z.ltb 16 3
           [(5, 10); (7, 30); (7, 20); (9, 40)]).
  intros x y H. apply Z.ltb_lt in H. apply Z.ltb_ge. lia.
Defined.

End MultimapProps.

Module PbfProps.

Import Pbf.

(** X19: the two conversions between the member types of the PBF format
    and the item types are inverse to each other: whenever one of them
    returns, the other one returns its argument back; and one that throws
    was given a value other than node, way and relation, and throws
    [std::runtime_error] with the text [Unknown relation member type]. *)
Theorem member_type_conversions_are_inverse :
  (forall mt,
     match osmpbf_membertype_to_item_type mt with
     | Returns type => item_type_to_osmpbf_membertype type = Returns mt
     | ThrowsRuntimeError what =>
         what = "Unknown relation member type"%string /\
         exists value, mt = MemberType_other value
     end) /\
  (forall type,
     match item_type_to_osmpbf_membertype type with
     | Returns mt => osmpbf_membertype_to_item_type mt = Returns type
     | ThrowsRuntimeError what =>
         what = "Unknown relation member type"%string /\
         exists value, type = item_type_other value
     end).
Proof.
  split.
  - intros [| | |value]; simpl; try reflexivity.
    split; [reflexivity | exists value; reflexivity].
  - intros [| | |value]; simpl; try reflexivity.
    split; [reflexivity | exists value; reflexivity].
Qed.

End PbfProps.
